(** * Distortion-robustness evaluation harness: geometry, distortion, bucketing

    A shallow embedding of [src/code.py].  Python numbers (ints and floats)
    are modelled as exact rationals [Q]; results of [int(...)] and the image
    dimensions are integers [Z].  Python exceptions are modelled by an error
    monad [result].  The random module, the image library and the classifier
    are external: their outcomes are explicit inputs of the model. *)

From Stdlib Require Import ZArith QArith Qround Qabs Lqa Lia List String.
From stdpp Require Import gmap.
Import ListNotations.

Local Open Scope Z_scope.

(** ** Exceptions *)

Inductive exn : Type :=
  | IndexError
  | KeyError
  | ZeroDivisionError
  | ValueError
  | OtherError (cls : string).

Inductive result (A : Type) : Type :=
  | Ok (a : A)
  | Raise (e : exn).

Arguments Ok {A} a.
Arguments Raise {A} e.

Definition bind {A B : Type} (m : result A) (k : A -> result B) : result B :=
  match m with
  | Ok a => k a
  | Raise e => Raise e
  end.

Notation "'let*' x ':=' m 'in' k" := (bind m (fun x => k))
  (at level 10, x pattern, m at level 100, k at level 200).

(** ** Python numeric primitives over [Q] *)

Module Py.

Definition ltb (a b : Q) : bool :=
  match (a ?= b)%Q with Lt => true | _ => false end.

(** [max(a, b)]: the first maximal argument. *)
Definition max (a b : Q) : Q := if ltb a b then b else a.

(** [min(a, b)]: the first minimal argument. *)
Definition min (a b : Q) : Q := if ltb b a then b else a.

(** [int(x)]: truncation toward zero. *)
Definition int (x : Q) : Z := Z.quot (Qnum x) (Zpos (Qden x)).

(** [a / b] raises on a zero divisor. *)
Definition truediv (a b : Q) : result Q :=
  if Qeq_bool b 0 then Raise ZeroDivisionError else Ok (a / b)%Q.

(** [random.uniform(a, b)] is [a + (b - a) * random()], where [r] is the
    value drawn by [random()]. *)
Definition uniform (r a b : Q) : Q := (a + (b - a) * r)%Q.

(** [random.choice([-1, 1])], where [k] tells whether the second element
    was drawn. *)
Definition choice_pm (k : bool) : Q := if k then 1%Q else (-1)%Q.

End Py.

(** ** Bounding boxes and IoU *)

Record BBox2D : Type := XYXY { x1 : Q; y1 : Q; x2 : Q; y2 : Q }.

Definition iou (b1 b2 : BBox2D) : result Q :=
  let x_a := Py.max (x1 b1) (x1 b2) in
  let y_a := Py.max (y1 b1) (y1 b2) in
  let x_b := Py.min (x2 b1) (x2 b2) in
  let y_b := Py.min (y2 b1) (y2 b2) in
  let inter_area := (Py.max 0 (x_b - x_a) * Py.max 0 (y_b - y_a))%Q in
  let box_a_area := ((x2 b1 - x1 b1) * (y2 b1 - y1 b1))%Q in
  let box_b_area := ((x2 b2 - x1 b2) * (y2 b2 - y1 b2))%Q in
  let denominator := (box_a_area + box_b_area - inter_area)%Q in
  if negb (Qeq_bool denominator 0) then Py.truediv inter_area denominator
  else Ok 0%Q.

(** [contenders[0]] raises [IndexError] on an empty list. *)
Definition head_item {A : Type} (l : list A) : result A :=
  match l with
  | [] => Raise IndexError
  | c :: _ => Ok c
  end.

(** The loop [for idx, c in enumerate(cs)] of [find_closest_iou], started at
    enumeration index [idx] with the running best [(last_i, last_iou)]. *)
Fixpoint closest_loop (b1 : BBox2D) (cs : list BBox2D) (idx : nat)
    (last : nat * Q) : result (nat * Q) :=
  match cs with
  | [] => Ok last
  | c :: cs' =>
      let* new_iou := iou b1 c in
      closest_loop b1 cs' (S idx)
        (if Py.ltb (snd last) new_iou then ((idx + 1)%nat, new_iou) else last)
  end.

Definition find_closest_iou (b1 : BBox2D) (contenders : list BBox2D)
    : result (nat * Q) :=
  let* c0 := head_item contenders in
  let* first_iou := iou b1 c0 in
  closest_loop b1 (tl contenders) 0 (0%nat, first_iou).

Definition from_yolo_bbox (cx cy nw nh : Q) (w h : Z) : BBox2D :=
  let left := Z.max 0 (Py.int ((cx - nw / 2) * inject_Z w)) in
  let upper := Z.max 0 (Py.int ((cy - nh / 2) * inject_Z h)) in
  let right := Z.min w (Py.int ((cx + nw / 2) * inject_Z w)) in
  let lower := Z.min h (Py.int ((cy + nh / 2) * inject_Z h)) in
  XYXY (inject_Z left) (inject_Z upper) (inject_Z right) (inject_Z lower).

(** ** Distortion generator *)

(** The four values drawn by one call of [distort], in call order: two
    [random()] values behind [random.uniform] and two [random.choice] picks. *)
Record Draws : Type :=
  { r_x : Q; r_y : Q; k_x : bool; k_y : bool }.

Definition distort (rnd : Draws) (x1 y1 x2 y2 : Q) : Z * Z * Z * Z :=
  let w := (x2 - x1)%Q in
  let h := (y2 - y1)%Q in
  let max_distortion_x := ((6 # 10) * w)%Q in
  let max_distortion_y := ((6 # 10) * h)%Q in
  let distortion_x := Py.uniform (r_x rnd) 0 max_distortion_x in
  let distortion_y := Py.uniform (r_y rnd) 0 max_distortion_y in
  let distortion_x := (Py.choice_pm (k_x rnd) * distortion_x)%Q in
  let distortion_y := (Py.choice_pm (k_y rnd) * distortion_y)%Q in
  let x1_distorted := Py.int (Py.max 0 (x1 + distortion_x)) in
  let y1_distorted := Py.int (Py.max 0 (y1 + distortion_y)) in
  let x2_distorted := Py.int (Py.min w (x2 + distortion_x)) in
  let y2_distorted := Py.int (Py.min h (y2 + distortion_y)) in
  (x1_distorted, y1_distorted, x2_distorted, y2_distorted).

(** An image is known by its size only. *)
Record Image : Type := { width : Z; height : Z }.

Definition size (img : Image) : Z * Z := (width img, height img).

(** [img.crop((left, upper, right, lower))] of the image library: the result
    has size [(right - left, lower - upper)]; a box whose right is less than
    its left, or whose lower is less than its upper, is refused. *)
Definition crop (img : Image) (box : Z * Z * Z * Z) : result Image :=
  let '(lft, upr, rgt, lwr) := box in
  if (rgt <? lft) || (lwr <? upr) then Raise ValueError
  else Ok {| width := rgt - lft; height := lwr - upr |}.

Definition distort_image (rnd : Draws) (img : Image) : result (Q * Image) :=
  let '(w, h) := size img in
  let '(x1, y1, x2, y2) := (0, 0, w - 1, h - 1) in
  let old_bbox := XYXY (inject_Z x1) (inject_Z y1) (inject_Z x2) (inject_Z y2) in
  let '(x1, y1, x2, y2) :=
    distort rnd (inject_Z x1) (inject_Z y1) (inject_Z x2) (inject_Z y2) in
  let new_bbox := XYXY (inject_Z x1) (inject_Z y1) (inject_Z x2) (inject_Z y2) in
  let* _iou := iou old_bbox new_bbox in
  let* img' := crop img (x1, y1, x2, y2) in
  Ok (_iou, img').

(** ** Evaluation harness *)

(** The [if _iou < 0.2 ... elif ... else] chain of [main]: the key of the
    bucket whose two counters the chosen branch updates. *)
Definition bucket (_iou : Q) : Z :=
  if Py.ltb _iou (2 # 10) then 2
  else if Py.ltb _iou (3 # 10) then 3
  else if Py.ltb _iou (4 # 10) then 4
  else if Py.ltb _iou (5 # 10) then 5
  else if Py.ltb _iou (6 # 10) then 6
  else if Py.ltb _iou (7 # 10) then 7
  else if Py.ltb _iou (8 # 10) then 8
  else if Py.ltb _iou (9 # 10) then 9
  else 10.

(** [d[k] += b] for a boolean [b]: reading a missing key raises. *)
Definition add_at (d : gmap Z Z) (k : Z) (b : bool) : result (gmap Z Z) :=
  match d !! k with
  | Some v => Ok (<[k := v + Z.b2z b]> d)
  | None => Raise KeyError
  end.

(** One entry of a class directory: its name and, for a file the harness
    opens, the decoded image, the values the distortion draws, and what
    [classifier.classify(img).class_] does on the distorted image. *)
Record Entry : Type :=
  { file : string;
    opened : Image;
    draws : Draws;
    classified : result string }.

Definition endswith (s suffix : string) : bool :=
  let n := String.length s in
  let m := String.length suffix in
  (m <=? n)%nat && String.eqb (substring (n - m) m s) suffix.

Definition Counters : Type := gmap Z Z * gmap Z Z.

(** The body of the inner loop of [main] on the counters [(d, d_not)]. *)
Definition process_file (cls_dir : string) (e : Entry) (st : Counters)
    : result Counters :=
  let '(d, d_not) := st in
  if endswith (file e) ".png" then
    let* (_iou, img) := distort_image (draws e) (opened e) in
    match classified e with
    | Raise _ => Ok (d, d_not)
    | Ok pred =>
        let k := bucket _iou in
        let* d := add_at d k (String.eqb pred cls_dir) in
        let* d_not := add_at d_not k (negb (String.eqb pred cls_dir)) in
        Ok (d, d_not)
    end
  else Ok (d, d_not).

Fixpoint process_files (cls_dir : string) (files : list Entry) (st : Counters)
    : result Counters :=
  match files with
  | [] => Ok st
  | e :: files' =>
      let* st' := process_file cls_dir e st in
      process_files cls_dir files' st'
  end.

Fixpoint process_dirs (dirs : list (string * list Entry)) (st : Counters)
    : result Counters :=
  match dirs with
  | [] => Ok st
  | (cls_dir, files) :: dirs' =>
      let* st' := process_files cls_dir files st in
      process_dirs dirs' st'
  end.

Definition initial_counts : gmap Z Z :=
  <[2 := 0]> (<[3 := 0]> (<[4 := 0]> (<[5 := 0]> (<[6 := 0]> (<[7 := 0]>
    (<[8 := 0]> (<[9 := 0]> (<[10 := 0]> ∅)))))))).

(** [main]: the final [(d, d_not)] it prints. *)
Definition main (dir_ : list (string * list Entry)) : result Counters :=
  let d := initial_counts in
  let d_not := initial_counts in
  process_dirs dir_ (d, d_not).


(** ** Vocabulary of the properties *)

(** The rectangle invariant [x1 <= x2] and [y1 <= y2]. *)
Definition well_formed (b : BBox2D) : Prop :=
  (x1 b <= x2 b)%Q /\ (y1 b <= y2 b)%Q.

Definition area (b : BBox2D) : Q := ((x2 b - x1 b) * (y2 b - y1 b))%Q.

(** Extent of the overlap of the intervals [a1, a2] and [b1, b2]. *)
Definition overlap (a1 a2 b1 b2 : Q) : Q :=
  Py.max 0 (Py.min a2 b2 - Py.max a1 b1).

Definition inter_area (a b : BBox2D) : Q :=
  (overlap (x1 a) (x2 a) (x1 b) (x2 b) * overlap (y1 a) (y2 a) (y1 b) (y2 b))%Q.

Definition union_area (a b : BBox2D) : Q :=
  (area a + area b - inter_area a b)%Q.

(** [(i, q)] is the first candidate of [l] with the greatest IoU against
    [t]: candidate [i] has IoU [q], no candidate has a greater one, and every
    candidate whose IoU equals [q] sits at index [i] or later. *)
Definition first_best (t : BBox2D) (l : list BBox2D) (i : nat) (q : Q) : Prop :=
  (exists c, l !! i = Some c /\ iou t c = Ok q) /\
  (forall j c v, l !! j = Some c -> iou t c = Ok v ->
     (v <= q)%Q /\ ((v == q)%Q -> (i <= j)%nat)).

(** The signed displacement [distort] applies along a dimension of extent
    [d], from the drawn [random()] value [r] and the drawn sign [k]. *)
Definition displacement (r : Q) (k : bool) (d : Q) : Q :=
  (Py.choice_pm k * Py.uniform r 0 ((6 # 10) * d))%Q.


(** Draws as the random module can produce them. *)
Definition unit_draws (rnd : Draws) : Prop :=
  (0 <= r_x rnd <= 1)%Q /\ (0 <= r_y rnd <= 1)%Q.

(** All four coordinates of [b] lie inside the frame of a [w] by [h] image. *)
Definition in_frame (b : BBox2D) (w h : Z) : Prop :=
  (0 <= x1 b <= inject_Z w)%Q /\ (0 <= x2 b <= inject_Z w)%Q /\
  (0 <= y1 b <= inject_Z h)%Q /\ (0 <= y2 b <= inject_Z h)%Q.

(** A normalized interval of centre [c] and extent [n] that is not wholly
    beyond either border of the unit frame. *)
Definition meets_frame (c n : Q) : Prop :=
  (0 <= n)%Q /\ (c - n / 2 <= 1)%Q /\ (0 <= c + n / 2)%Q.

(** The nine bucket keys. *)
Definition bucket_keys : list Z := [2; 3; 4; 5; 6; 7; 8; 9; 10].

(** A counter mapping has exactly the nine bucket keys. *)
Definition has_keys (d : gmap Z Z) : Prop :=
  dom d = (list_to_set bucket_keys : gset Z).

(** The counter of bucket [k]. *)
Definition count (d : gmap Z Z) (k : Z) : Z := default 0 (d !! k).

Definition sum_counts (d : gmap Z Z) (l : list Z) : Z :=
  foldr (fun k acc => count d k + acc) 0 l.

(** Sum of the counters of all buckets. *)
Definition total (d : gmap Z Z) : Z := sum_counts d bucket_keys.

Definition is_png (e : Entry) : bool := endswith (file e) ".png".

(** The entry is an image whose classification returns a label. *)
Definition classified_ok (e : Entry) : bool :=
  is_png e && match classified e with Ok _ => true | Raise _ => false end.

Fixpoint successes_in (files : list Entry) : Z :=
  match files with
  | [] => 0
  | e :: files' => Z.b2z (classified_ok e) + successes_in files'
  end.

(** Number of successfully classified images of a dataset. *)
Fixpoint successes (dirs : list (string * list Entry)) : Z :=
  match dirs with
  | [] => 0
  | (_, files) :: dirs' => successes_in files + successes dirs'
  end.

(** What the harness may assume of an image it opens: a decoded bitmap of
    positive size, and draws as the random module produces them. *)
Definition valid_entry (e : Entry) : Prop :=
  is_png e = true ->
  0 < width (opened e) /\ 0 < height (opened e) /\ unit_draws (draws e).

Definition valid_dataset (dirs : list (string * list Entry)) : Prop :=
  Forall (fun cf => Forall valid_entry (snd cf)) dirs.

Definition raises (e : Entry) : Prop :=
  match classified e with Ok _ => False | Raise _ => True end.

(** Every classification of the run raises. *)
Definition all_raise (dirs : list (string * list Entry)) : Prop :=
  Forall (fun cf => Forall raises (snd cf)) dirs.

(** The counters after an image of IoU [q] was classified as [pred] in the
    class directory [cls_dir]: one more in the correct counter of the bucket
    of [q] on an exact match, one more in its incorrect counter otherwise. *)
Definition counted_once (cls_dir pred : string) (q : Q) (st : Counters)
    : Counters :=
  let k := bucket q in
  if String.eqb pred cls_dir
  then (<[k := count (fst st) k + 1]> (fst st), snd st)
  else (fst st, <[k := count (snd st) k + 1]> (snd st)).

(** Both counter mappings have exactly the nine bucket keys. *)
Definition keyed (st : Counters) : Prop := has_keys (fst st) /\ has_keys (snd st).

(** A small dataset: one class directory holding a correctly classified
    image, a file that is not an image, a misclassified image and an image
    on which the classifier raises. *)
Definition sample_dataset : list (string * list Entry) :=
  [("cat"%string,
    [ {| file := "a.png"; opened := {| width := 100; height := 100 |};
         draws := {| r_x := 1 # 2; r_y := 1 # 4; k_x := true; k_y := false |};
         classified := Ok "cat"%string |};
      {| file := "notes.txt"; opened := {| width := 0; height := 0 |};
         draws := {| r_x := 0; r_y := 0; k_x := true; k_y := true |};
         classified := Ok "cat"%string |};
      {| file := "c.png"; opened := {| width := 10; height := 20 |};
         draws := {| r_x := 0; r_y := 1 # 4; k_x := false; k_y := false |};
         classified := Ok "dog"%string |};
      {| file := "d.png"; opened := {| width := 1; height := 1 |};
         draws := {| r_x := 1; r_y := 1; k_x := true; k_y := true |};
         classified := Raise ValueError |} ])].

(** The two boxes share a region of positive area: on each axis the greater
    lower bound is below the lesser upper bound. *)
Definition overlapping (a b : BBox2D) : Prop :=
  ((x1 a < x2 a)%Q /\ (x1 a < x2 b)%Q /\ (x1 b < x2 a)%Q /\ (x1 b < x2 b)%Q) /\
  ((y1 a < y2 a)%Q /\ (y1 a < y2 b)%Q /\ (y1 b < y2 a)%Q /\ (y1 b < y2 b)%Q).

(** Equal coordinates, as numbers. *)
Definition same_box (a b : BBox2D) : Prop :=
  (x1 a == x1 b)%Q /\ (y1 a == y1 b)%Q /\ (x2 a == x2 b)%Q /\ (y2 a == y2 b)%Q.

(** [b] lies inside [a]. *)
Definition contains (a b : BBox2D) : Prop :=
  (x1 a <= x1 b)%Q /\ (x2 b <= x2 a)%Q /\ (y1 a <= y1 b)%Q /\ (y2 b <= y2 a)%Q.

Definition translate (tx ty : Q) (b : BBox2D) : BBox2D :=
  XYXY (x1 b + tx) (y1 b + ty) (x2 b + tx) (y2 b + ty).


(** The module-level [crop(img, bbox)]: the image library's crop on the
    truncated coordinates of the box. *)
Definition crop_bbox (img : Image) (bbox : BBox2D) : result Image :=
  crop img (Py.int (x1 bbox), Py.int (y1 bbox), Py.int (x2 bbox), Py.int (y2 bbox)).

(** A normalized interval of centre [c] and extent [n] inside the unit
    frame. *)
Definition inside_unit (c n : Q) : Prop :=
  (0 <= c - n / 2)%Q /\ (c + n / 2 <= 1)%Q.

(** The images of a dataset in processing order, each with the name of
    its class directory. *)
Fixpoint images (dirs : list (string * list Entry)) : list (string * Entry) :=
  match dirs with
  | [] => []
  | (cls_dir, files) :: dirs' => map (pair cls_dir) files ++ images dirs'
  end.

(** The IoU that the harness computes for an entry. *)
Definition entry_iou (e : Entry) : option Q :=
  match distort_image (draws e) (opened e) with
  | Ok (q, _) => Some q
  | Raise _ => None
  end.

(** The entry is an image that was classified, whose IoU falls into bucket
    [k], and whose predicted label matches its class directory
    ([correct = true]) or differs from it ([correct = false]). *)
Definition hit (correct : bool) (k : Z) (ce : string * Entry) : bool :=
  is_png (snd ce) &&
  match classified (snd ce), entry_iou (snd ce) with
  | Ok pred, Some q =>
      Bool.eqb (String.eqb pred (fst ce)) correct && (bucket q =? k)
  | _, _ => false
  end.

Definition hits (correct : bool) (k : Z) (l : list (string * Entry)) : Z :=
  foldr (fun ce acc => Z.b2z (hit correct k ce) + acc) 0 l.

(** Number of image files among the entries. *)
Definition pngs (l : list (string * Entry)) : Z :=
  foldr (fun ce acc => Z.b2z (is_png (snd ce)) + acc) 0 l.

(** Every image is classified, with its directory name ([correct = true])
    or with another label ([correct = false]). *)
Definition all_labelled (correct : bool) (l : list (string * Entry)) : Prop :=
  Forall (fun ce => is_png (snd ce) = true ->
                    exists pred, classified (snd ce) = Ok pred /\
                                 String.eqb pred (fst ce) = correct) l.

(** The dataset without the files that are not images. *)
Definition only_png (dirs : list (string * list Entry))
    : list (string * list Entry) :=
  map (fun cf => (fst cf, List.filter is_png (snd cf))) dirs.

(** Two class directories with one correctly classified image each, and
    the same dataset listed in the other order. *)
Definition cat_image : Entry :=
  {| file := "a.png"; opened := {| width := 100; height := 100 |};
     draws := {| r_x := 1 # 2; r_y := 1 # 4; k_x := true; k_y := false |};
     classified := Ok "cat"%string |}.

Definition dog_image : Entry :=
  {| file := "b.png"; opened := {| width := 64; height := 48 |};
     draws := {| r_x := 1 # 10; r_y := 0; k_x := false; k_y := true |};
     classified := Ok "dog"%string |}.

Definition two_dirs : list (string * list Entry) :=
  [("cat"%string, [cat_image]); ("dog"%string, [dog_image])].


(** * Properties *)

(** ** Comparisons, [max], [min] *)

Lemma ltb_true (a b : Q) : Py.ltb a b = true <-> (a < b)%Q.
Proof.
  unfold Py.ltb. rewrite Qlt_alt.
  destruct (a ?= b)%Q; split; intro H; congruence.
Qed.

Lemma ltb_false (a b : Q) : Py.ltb a b = false <-> (b <= a)%Q.
Proof.
  pose proof (ltb_true a b) as T.
  destruct (Py.ltb a b); split; intro H.
  - discriminate.
  - exfalso. apply (Qlt_not_le a b); [now apply T | exact H].
  - apply Qnot_lt_le. intro L. apply T in L. discriminate.
  - reflexivity.
Qed.

Lemma max_cases (a b : Q) :
  ((a < b)%Q /\ Py.max a b = b) \/ ((b <= a)%Q /\ Py.max a b = a).
Proof.
  unfold Py.max. destruct (Py.ltb a b) eqn:E.
  - left. split; [now apply ltb_true | reflexivity].
  - right. split; [now apply ltb_false | reflexivity].
Qed.

Lemma min_cases (a b : Q) :
  ((b < a)%Q /\ Py.min a b = b) \/ ((a <= b)%Q /\ Py.min a b = a).
Proof.
  unfold Py.min. destruct (Py.ltb b a) eqn:E.
  - left. split; [now apply ltb_true | reflexivity].
  - right. split; [now apply ltb_false | reflexivity].
Qed.

(** Splits on every [Py.max] and [Py.min] in sight. *)
Ltac py_cases :=
  repeat match goal with
  | |- context [Py.max ?a ?b] =>
      let H := fresh "Hc" in let E := fresh "E" in
      destruct (max_cases a b) as [[H E] | [H E]]; rewrite E in *; clear E
  | |- context [Py.min ?a ?b] =>
      let H := fresh "Hc" in let E := fresh "E" in
      destruct (min_cases a b) as [[H E] | [H E]]; rewrite E in *; clear E
  | _ : context [Py.max ?a ?b] |- _ =>
      let H := fresh "Hc" in let E := fresh "E" in
      destruct (max_cases a b) as [[H E] | [H E]]; rewrite E in *; clear E
  | _ : context [Py.min ?a ?b] |- _ =>
      let H := fresh "Hc" in let E := fresh "E" in
      destruct (min_cases a b) as [[H E] | [H E]]; rewrite E in *; clear E
  end.

Lemma overlap_comm (a1 a2 b1 b2 : Q) :
  (overlap a1 a2 b1 b2 == overlap b1 b2 a1 a2)%Q.
Proof. unfold overlap. py_cases; lra. Qed.

Lemma overlap_nonneg (a1 a2 b1 b2 : Q) : (0 <= overlap a1 a2 b1 b2)%Q.
Proof. unfold overlap. py_cases; lra. Qed.

Lemma overlap_le_l (a1 a2 b1 b2 : Q) :
  (a1 <= a2)%Q -> (overlap a1 a2 b1 b2 <= a2 - a1)%Q.
Proof. intros H. unfold overlap. py_cases; lra. Qed.

Lemma overlap_le_r (a1 a2 b1 b2 : Q) :
  (b1 <= b2)%Q -> (overlap a1 a2 b1 b2 <= b2 - b1)%Q.
Proof. intros H. unfold overlap. py_cases; lra. Qed.

Lemma overlap_self (a1 a2 : Q) :
  (a1 <= a2)%Q -> (overlap a1 a2 a1 a2 == a2 - a1)%Q.
Proof. intros H. unfold overlap. py_cases; lra. Qed.

Lemma overlap_degenerate_l (a1 a2 b1 b2 : Q) :
  (a1 == a2)%Q -> (overlap a1 a2 b1 b2 == 0)%Q.
Proof. intros H. unfold overlap. py_cases; lra. Qed.

Lemma overlap_degenerate_r (a1 a2 b1 b2 : Q) :
  (b1 == b2)%Q -> (overlap a1 a2 b1 b2 == 0)%Q.
Proof. intros H. unfold overlap. py_cases; lra. Qed.

(** ** IoU *)

(** What [iou] returns: it never takes the raising branch of the division. *)
Lemma iou_cases (a b : BBox2D) :
  ((union_area a b == 0)%Q /\ iou a b = Ok 0%Q) \/
  (~ (union_area a b == 0)%Q /\
   iou a b = Ok (inter_area a b / union_area a b)%Q).
Proof.
  unfold iou.
  change (Py.max 0 (Py.min (x2 a) (x2 b) - Py.max (x1 a) (x1 b)) *
          Py.max 0 (Py.min (y2 a) (y2 b) - Py.max (y1 a) (y1 b)))%Q
    with (inter_area a b).
  change ((x2 a - x1 a) * (y2 a - y1 a) + (x2 b - x1 b) * (y2 b - y1 b)
          - inter_area a b)%Q with (union_area a b).
  unfold Py.truediv.
  destruct (Qeq_bool (union_area a b) 0) eqn:E; simpl.
  - left. split; [now apply Qeq_bool_iff | reflexivity].
  - right. split; [| reflexivity].
    intro H. apply Qeq_bool_iff in H. congruence.
Qed.

Lemma iou_returns (a b : BBox2D) : exists q, iou a b = Ok q.
Proof. destruct (iou_cases a b) as [[_ H] | [_ H]]; eauto. Qed.

Lemma inter_area_comm (a b : BBox2D) : (inter_area a b == inter_area b a)%Q.
Proof.
  unfold inter_area.
  now rewrite (overlap_comm (x1 a)), (overlap_comm (y1 a)).
Qed.

Lemma union_area_comm (a b : BBox2D) : (union_area a b == union_area b a)%Q.
Proof. unfold union_area. rewrite (inter_area_comm a b). ring. Qed.

Lemma inter_area_nonneg (a b : BBox2D) : (0 <= inter_area a b)%Q.
Proof.
  unfold inter_area. apply Qmult_le_0_compat; apply overlap_nonneg.
Qed.

Lemma mult_le_mono (p q u v : Q) :
  (0 <= p)%Q -> (p <= u)%Q -> (0 <= q)%Q -> (q <= v)%Q -> (p * q <= u * v)%Q.
Proof. intros. nra. Qed.

Lemma inter_area_le_l (a b : BBox2D) :
  well_formed a -> (inter_area a b <= area a)%Q.
Proof.
  intros [Hx Hy]. unfold inter_area, area.
  apply mult_le_mono; auto using overlap_nonneg, overlap_le_l.
Qed.

Lemma inter_area_le_r (a b : BBox2D) :
  well_formed b -> (inter_area a b <= area b)%Q.
Proof.
  intros [Hx Hy]. unfold inter_area, area.
  apply mult_le_mono; auto using overlap_nonneg, overlap_le_r.
Qed.

Lemma iou_bounds (a b : BBox2D) :
  well_formed a -> well_formed b ->
  exists q, iou a b = Ok q /\ (0 <= q <= 1)%Q.
Proof.
  intros Ha Hb.
  pose proof (inter_area_nonneg a b) as H0.
  pose proof (inter_area_le_l a b Ha) as H1.
  pose proof (inter_area_le_r a b Hb) as H2.
  destruct (iou_cases a b) as [[_ E] | [Hne E]]; rewrite E.
  - exists 0%Q. split; [reflexivity | lra].
  - eexists. split; [reflexivity |].
    assert (Hpos : (0 < union_area a b)%Q).
    { unfold union_area in *. lra. }
    split.
    + apply Qle_shift_div_l; [exact Hpos | lra].
    + apply Qle_shift_div_r; [exact Hpos |]. unfold union_area. lra.
Qed.

Lemma iou_symmetric (a b : BBox2D) :
  exists q r, iou a b = Ok q /\ iou b a = Ok r /\ (q == r)%Q.
Proof.
  pose proof (union_area_comm a b) as U.
  destruct (iou_cases a b) as [[Z1 E1] | [N1 E1]];
    destruct (iou_cases b a) as [[Z2 E2] | [N2 E2]];
    rewrite E1, E2; do 2 eexists; (split; [reflexivity |]);
    (split; [reflexivity |]).
  - reflexivity.
  - exfalso. apply N2. now rewrite <- U.
  - exfalso. apply N1. now rewrite U.
  - now rewrite U, (inter_area_comm a b).
Qed.

Lemma inter_area_self (a : BBox2D) :
  well_formed a -> (inter_area a a == area a)%Q.
Proof.
  intros [Hx Hy]. unfold inter_area, area.
  now rewrite (overlap_self _ _ Hx), (overlap_self _ _ Hy).
Qed.

Lemma iou_self (a : BBox2D) :
  well_formed a -> (0 < area a)%Q -> exists q, iou a a = Ok q /\ (q == 1)%Q.
Proof.
  intros Ha Hpos.
  pose proof (inter_area_self a Ha) as I.
  assert (U : (union_area a a == area a)%Q).
  { unfold union_area. rewrite I. ring. }
  destruct (iou_cases a a) as [[Z0 _] | [N E]].
  - rewrite U in Z0. lra.
  - rewrite E. eexists. split; [reflexivity |].
    rewrite I, U. field. lra.
Qed.

Lemma inter_area_zero_l (a b : BBox2D) :
  (area a == 0)%Q -> (inter_area a b == 0)%Q.
Proof.
  unfold area, inter_area. intros H.
  apply Qmult_integral in H. destruct H as [H | H].
  - rewrite (overlap_degenerate_l (x1 a) (x2 a)); [ring | lra].
  - rewrite (overlap_degenerate_l (y1 a) (y2 a)); [ring | lra].
Qed.

Lemma inter_area_zero_r (a b : BBox2D) :
  (area b == 0)%Q -> (inter_area a b == 0)%Q.
Proof. intros H. rewrite inter_area_comm. now apply inter_area_zero_l. Qed.

Lemma iou_zero_inter (a b : BBox2D) :
  (inter_area a b == 0)%Q -> exists q, iou a b = Ok q /\ (q == 0)%Q.
Proof.
  intros H. destruct (iou_cases a b) as [[_ E] | [N E]]; rewrite E.
  - exists 0%Q. split; reflexivity.
  - eexists. split; [reflexivity |]. rewrite H. now field.
Qed.

(** ** Claims about [iou] *)

(** C3: for rectangles [a] and [b] with [x1 <= x2] and [y1 <= y2],
    [iou a b] equals [iou b a]; [iou a a] equals 1 whenever the area of [a]
    is positive; and [iou a b] lies in the closed interval from 0 to 1. *)
Theorem iou_symmetric_unit_bounded (a b : BBox2D) :
  well_formed a -> well_formed b ->
  (exists q r, iou a b = Ok q /\ iou b a = Ok r /\ (q == r)%Q) /\
  ((0 < area a)%Q -> exists q, iou a a = Ok q /\ (q == 1)%Q) /\
  (exists q, iou a b = Ok q /\ (0 <= q <= 1)%Q).
Proof.
  intros Ha Hb. split; [| split].
  - apply iou_symmetric.
  - now apply iou_self.
  - now apply iou_bounds.
Qed.

Lemma iou_symmetric_unit_bounded_witness :
  let a := XYXY 0 0 2 2 in
  let b := XYXY 1 1 3 3 in
  well_formed a /\ well_formed b /\
  (exists q r, iou a b = Ok q /\ iou b a = Ok r /\ (q == r)%Q) /\
  ((0 < area a)%Q -> exists q, iou a a = Ok q /\ (q == 1)%Q) /\
  (exists q, iou a b = Ok q /\ (0 <= q <= 1)%Q).
Proof.
  intros a b.
  assert (Ha : well_formed a) by (split; vm_compute; discriminate).
  assert (Hb : well_formed b) by (split; vm_compute; discriminate).
  split; [exact Ha |]. split; [exact Hb |].
  exact (iou_symmetric_unit_bounded a b Ha Hb).
Defined.

(** C4: [iou] always returns, so it neither raises nor divides by zero;
    when the union area [area a + area b - intersection] is zero the result
    is the literal 0; and when either rectangle has zero area the result
    equals 0, whatever the other rectangle is. *)
Theorem iou_never_raises_degenerate_zero (a b : BBox2D) :
  (exists q, iou a b = Ok q) /\
  ((union_area a b == 0)%Q -> iou a b = Ok 0%Q) /\
  ((area a == 0)%Q \/ (area b == 0)%Q ->
   exists q, iou a b = Ok q /\ (q == 0)%Q).
Proof.
  split; [apply iou_returns |]. split.
  - intros Z0. destruct (iou_cases a b) as [[_ E] | [N _]];
      [exact E | contradiction].
  - intros [H | H]; apply iou_zero_inter.
    + now apply inter_area_zero_l.
    + now apply inter_area_zero_r.
Qed.

Lemma iou_never_raises_degenerate_zero_witness :
  let a := XYXY 1 1 1 5 in
  let b := XYXY 0 0 4 4 in
  ((area a == 0)%Q \/ (area b == 0)%Q) /\
  exists q, iou a b = Ok q /\ (q == 0)%Q.
Proof.
  intros a b.
  assert (H : (area a == 0)%Q \/ (area b == 0)%Q) by (left; reflexivity).
  split; [exact H |].
  exact (proj2 (proj2 (iou_never_raises_degenerate_zero a b)) H).
Defined.

(** ** [find_closest_iou] *)

Section ClosestLoop.

Variable t : BBox2D.

Lemma first_best_single (c : BBox2D) (q : Q) :
  iou t c = Ok q -> first_best t [c] 0 q.
Proof.
  intros Hq. split.
  - exists c. split; [reflexivity | exact Hq].
  - intros j c' v Hj Hv. destruct j as [| j]; simpl in Hj.
    + injection Hj as <-. rewrite Hq in Hv. injection Hv as <-.
      split; [apply Qle_refl | intros _; apply Nat.le_refl].
    + discriminate.
Qed.

(** The running best stays the best when the next candidate is no better. *)
Lemma first_best_keep (pre : list BBox2D) (c : BBox2D) (i : nat) (q v : Q) :
  first_best t pre i q -> iou t c = Ok v -> (v <= q)%Q ->
  first_best t (pre ++ [c]) i q.
Proof.
  intros [[c0 [Hi Hc0]] Hall] Hv Hle.
  pose proof (lookup_lt_Some _ _ _ Hi) as Hlt. split.
  - exists c0. split; [| exact Hc0]. rewrite lookup_app_l; assumption.
  - intros j c' v' Hj Hv'.
    destruct (Nat.lt_ge_cases j (length pre)) as [Hjl | Hjl].
    + rewrite lookup_app_l in Hj by assumption. eapply Hall; eassumption.
    + rewrite lookup_app_r in Hj by assumption.
      destruct (j - length pre)%nat eqn:Ej; simpl in Hj; [| discriminate].
      injection Hj as <-. rewrite Hv in Hv'. injection Hv' as <-.
      split; [exact Hle | intros _; lia].
Qed.

(** A strictly better next candidate becomes the best. *)
Lemma first_best_replace (pre : list BBox2D) (c : BBox2D) (i : nat) (q v : Q) :
  first_best t pre i q -> iou t c = Ok v -> (q < v)%Q ->
  first_best t (pre ++ [c]) (length pre) v.
Proof.
  intros [_ Hall] Hv Hlt. split.
  - exists c. split; [| exact Hv].
    rewrite lookup_app_r by apply Nat.le_refl.
    now rewrite Nat.sub_diag.
  - intros j c' v' Hj Hv'.
    destruct (Nat.lt_ge_cases j (length pre)) as [Hjl | Hjl].
    + rewrite lookup_app_l in Hj by assumption.
      destruct (Hall j c' v' Hj Hv') as [Hle _].
      split; [lra | intros Heq; lra].
    + rewrite lookup_app_r in Hj by assumption.
      destruct (j - length pre)%nat eqn:Ej; simpl in Hj; [| discriminate].
      injection Hj as <-. rewrite Hv in Hv'. injection Hv' as <-.
      split; [apply Qle_refl | intros _; exact Hjl].
Qed.

Lemma closest_loop_first_best (cs : list BBox2D) :
  forall (pre : list BBox2D) (idx i : nat) (q : Q),
    length pre = S idx -> first_best t pre i q ->
    exists i' q', closest_loop t cs idx (i, q) = Ok (i', q') /\
                  first_best t (pre ++ cs) i' q'.
Proof.
  induction cs as [| c cs IH]; intros pre idx i q Hlen Hbest.
  - exists i, q. rewrite app_nil_r. split; [reflexivity | exact Hbest].
  - destruct (iou_returns t c) as [v Hv].
    cbn [closest_loop]. rewrite Hv. cbn [bind snd].
    replace (pre ++ c :: cs) with ((pre ++ [c]) ++ cs)
      by (rewrite <- app_assoc; reflexivity).
    assert (Hlen' : length (pre ++ [c]) = S (S idx)).
    { rewrite length_app. simpl. lia. }
    destruct (Py.ltb q v) eqn:E.
    + apply ltb_true in E. apply IH; [exact Hlen' |].
      replace (idx + 1)%nat with (length pre) by lia.
      eapply first_best_replace; eassumption.
    + apply ltb_false in E. apply IH; [exact Hlen' |].
      eapply first_best_keep; eassumption.
Qed.

End ClosestLoop.

(** C7: on a non-empty candidate list [find_closest_iou] returns a pair
    [(i, q)] where [q] is the IoU of the target with candidate [i], no
    candidate has a greater IoU, and [i] is the least index whose candidate
    attains [q]; on a single candidate it returns index 0 with that
    candidate's IoU. *)
Theorem find_closest_iou_first_maximum (t : BBox2D) (cs : list BBox2D) :
  cs <> [] ->
  (exists i q, find_closest_iou t cs = Ok (i, q) /\ first_best t cs i q) /\
  (forall c, cs = [c] ->
     exists q, iou t c = Ok q /\ find_closest_iou t cs = Ok (0%nat, q)).
Proof.
  intros Hne. split.
  - destruct cs as [| c0 cs]; [contradiction |].
    destruct (iou_returns t c0) as [q0 Hq0].
    unfold find_closest_iou. cbn [head_item bind tl]. rewrite Hq0. cbn [bind].
    apply (closest_loop_first_best t cs [c0] 0%nat 0%nat q0 eq_refl).
    now apply first_best_single.
  - intros c ->. destruct (iou_returns t c) as [q Hq].
    exists q. split; [exact Hq |].
    unfold find_closest_iou. cbn [head_item bind tl]. rewrite Hq. reflexivity.
Qed.

Lemma find_closest_iou_first_maximum_witness :
  let t := XYXY 0 0 2 2 in
  let cs := [XYXY 1 1 3 3; XYXY 0 0 2 2; XYXY 0 0 2 2] in
  cs <> [] /\
  exists i q, find_closest_iou t cs = Ok (i, q) /\ first_best t cs i q.
Proof.
  intros t cs.
  assert (H : cs <> []) by discriminate.
  split; [exact H |].
  exact (proj1 (find_closest_iou_first_maximum t cs H)).
Defined.

(** C8 (as stated, refuted): on an empty candidate list the failure is not
    a dedicated [EmptyInputError]. *)
Lemma find_closest_iou_empty_not_EmptyInputError :
  find_closest_iou (XYXY 0 0 1 1) [] <> Raise (OtherError "EmptyInputError").
Proof. vm_compute. discriminate. Qed.

(** C8 (amended): on an empty candidate list [find_closest_iou] fails with
    the [IndexError] of reading [contenders[0]]; no precondition check
    precedes it. *)
Theorem find_closest_iou_empty_IndexError (t : BBox2D) :
  find_closest_iou t [] = Raise IndexError.
Proof. reflexivity. Qed.

(** ** [int] *)

Lemma int_nonneg_floor (q : Q) : (0 <= q)%Q -> Py.int q = Qfloor q.
Proof.
  destruct q as [n d]. unfold Qle, Py.int, Qfloor. simpl. intros H.
  apply Z.quot_div_nonneg; lia.
Qed.

Lemma int_nonpos_ceiling (q : Q) : (q <= 0)%Q -> Py.int q = Qceiling q.
Proof.
  destruct q as [n d]. unfold Qle, Py.int, Qceiling, Qfloor. simpl. intros H.
  rewrite <- (Z.opp_involutive n) at 1.
  rewrite Z.quot_opp_l by lia.
  rewrite Z.quot_div_nonneg by lia. reflexivity.
Qed.

Lemma int_inject_Z (z : Z) : Py.int (inject_Z z) = z.
Proof. unfold Py.int. simpl. apply Z.quot_1_r. Qed.

Lemma int_le (p q : Q) : (p <= q)%Q -> Py.int p <= Py.int q.
Proof.
  intros H.
  destruct (Qlt_le_dec p 0) as [Hp | Hp]; destruct (Qlt_le_dec q 0) as [Hq | Hq].
  - rewrite !int_nonpos_ceiling by lra. now apply Qceiling_resp_le.
  - rewrite (int_nonpos_ceiling p), (int_nonneg_floor q) by lra.
    apply Z.le_trans with 0.
    + change 0 with (Qceiling 0%Q). apply Qceiling_resp_le. lra.
    + change 0 with (Qfloor 0%Q). apply Qfloor_resp_le. exact Hq.
  - lra.
  - rewrite !int_nonneg_floor by lra. now apply Qfloor_resp_le.
Qed.

Lemma int_eq (p q : Q) : (p == q)%Q -> Py.int p = Py.int q.
Proof. intros H. apply Z.le_antisymm; apply int_le; lra. Qed.

(** ** [distort] *)

Lemma displacement_bound (r : Q) (k : bool) (d : Q) :
  (0 <= r <= 1)%Q -> (0 <= d)%Q ->
  (Qabs (displacement r k d) <= (6 # 10) * d)%Q.
Proof.
  intros Hr Hd. apply Qabs_Qle_condition.
  unfold displacement, Py.uniform, Py.choice_pm.
  assert (0 <= d * r)%Q by nra. assert (d * r <= d)%Q by nra.
  destruct k; lra.
Qed.



(** ** [distort_image] *)

(** Along one axis of the full-image box [0 .. n], the two clamped and
    truncated coordinates stay ordered and inside the box. *)
Lemma distort_axis (r : Q) (k : bool) (n : Z) :
  0 <= n -> (0 <= r <= 1)%Q ->
  let lo := inject_Z 0 in
  let hi := inject_Z n in
  let d := displacement r k (hi - lo) in
  0 <= Py.int (Py.max 0 (lo + d)) /\
  Py.int (Py.max 0 (lo + d)) <= Py.int (Py.min (hi - lo) (hi + d)) /\
  Py.int (Py.min (hi - lo) (hi + d)) <= n.
Proof.
  intros Hn Hr lo hi d.
  assert (Hhi : (0 <= hi)%Q).
  { unfold hi. change 0%Q with (inject_Z 0). now rewrite <- Zle_Qle. }
  assert (Hlo : (lo == 0)%Q) by reflexivity.
  assert (Hd : (- ((6 # 10) * hi) <= d <= (6 # 10) * hi)%Q).
  { pose proof (displacement_bound r k (hi - lo) Hr) as B.
    apply Qabs_Qle_condition in B; [| lra]. fold d in B. lra. }
  assert (H1 : (0 <= Py.max 0 (lo + d))%Q) by (py_cases; lra).
  assert (H2 : (Py.max 0 (lo + d) <= Py.min (hi - lo) (hi + d))%Q)
    by (py_cases; lra).
  assert (H3 : (Py.min (hi - lo) (hi + d) <= hi)%Q) by (py_cases; lra).
  split; [| split].
  - rewrite <- (int_inject_Z 0). now apply int_le.
  - now apply int_le.
  - apply Z.le_trans with (Py.int hi); [now apply int_le |].
    unfold hi. rewrite int_inject_Z. apply Z.le_refl.
Qed.

(** [distort_image] returns: the distorted box is ordered and inside the
    full-image box, so neither [iou] nor [crop] raises. *)
Lemma distort_image_returns (rnd : Draws) (img : Image) :
  0 < width img -> 0 < height img -> unit_draws rnd ->
  exists a b c d q,
    (0 <= a /\ a <= c /\ c <= width img - 1) /\
    (0 <= b /\ b <= d /\ d <= height img - 1) /\
    iou (XYXY (inject_Z 0) (inject_Z 0) (inject_Z (width img - 1))
              (inject_Z (height img - 1)))
        (XYXY (inject_Z a) (inject_Z b) (inject_Z c) (inject_Z d)) = Ok q /\
    distort_image rnd img = Ok (q, {| width := c - a; height := d - b |}).
Proof.
  intros Hw Hh [Hx Hy].
  pose proof (distort_axis (r_x rnd) (k_x rnd) (width img - 1)
                ltac:(lia) Hx) as HX.
  pose proof (distort_axis (r_y rnd) (k_y rnd) (height img - 1)
                ltac:(lia) Hy) as HY.
  cbv zeta in HX, HY.
  unfold distort_image, size, distort.
  unfold displacement in HX, HY.
  match type of HX with _ /\ ?ta <= ?tc /\ _ =>
    set (a := ta) in *; set (c := tc) in * end.
  match type of HY with _ /\ ?tb <= ?td /\ _ =>
    set (b := tb) in *; set (d := td) in * end.
  destruct (iou_returns
              (XYXY (inject_Z 0) (inject_Z 0) (inject_Z (width img - 1))
                    (inject_Z (height img - 1)))
              (XYXY (inject_Z a) (inject_Z b) (inject_Z c) (inject_Z d)))
    as [q Hq].
  exists a, b, c, d, q.
  split; [exact HX |]. split; [exact HY |]. split; [exact Hq |].
  rewrite Hq. cbn [bind]. unfold crop.
  replace ((c <? a) || (d <? b)) with false
    by (symmetry; apply orb_false_intro; apply Z.ltb_ge; tauto).
  reflexivity.
Qed.

(** C6: on an image of positive size, whatever the draws in the unit
    interval, [distort_image] returns an IoU between 0 and 1 and a cropped
    image whose width and height are at least 0 and at most those of the
    original image. *)
Theorem distort_image_iou_and_crop_bounds (rnd : Draws) (img : Image) :
  0 < width img -> 0 < height img -> unit_draws rnd ->
  exists q img',
    distort_image rnd img = Ok (q, img') /\
    (0 <= q <= 1)%Q /\
    0 <= width img' <= width img /\
    0 <= height img' <= height img.
Proof.
  intros Hw Hh Hr.
  destruct (distort_image_returns rnd img Hw Hh Hr)
    as (a & b & c & d & q & HX & HY & Hq & Hd).
  destruct (iou_bounds
              (XYXY (inject_Z 0) (inject_Z 0) (inject_Z (width img - 1))
                    (inject_Z (height img - 1)))
              (XYXY (inject_Z a) (inject_Z b) (inject_Z c) (inject_Z d)))
    as (q' & Hq' & Hq01).
  - split; simpl; rewrite <- Zle_Qle; lia.
  - split; simpl; rewrite <- Zle_Qle; tauto.
  - rewrite Hq in Hq'. injection Hq' as <-.
    exists q, {| width := c - a; height := d - b |}.
    split; [exact Hd |]. split; [exact Hq01 |]. simpl. lia.
Qed.

Lemma distort_image_iou_and_crop_bounds_witness :
  let rnd := {| r_x := 1 # 2; r_y := 1 # 4; k_x := true; k_y := false |} in
  let img := {| width := 100; height := 100 |} in
  0 < width img /\ 0 < height img /\ unit_draws rnd /\
  exists q img',
    distort_image rnd img = Ok (q, img') /\
    (0 <= q <= 1)%Q /\
    0 <= width img' <= width img /\
    0 <= height img' <= height img.
Proof.
  intros rnd img.
  assert (Hw : 0 < width img) by reflexivity.
  assert (Hh : 0 < height img) by reflexivity.
  assert (Hr : unit_draws rnd) by (repeat split; vm_compute; discriminate).
  split; [exact Hw |]. split; [exact Hh |]. split; [exact Hr |].
  exact (distort_image_iou_and_crop_bounds rnd img Hw Hh Hr).
Defined.

(** ** [from_yolo_bbox] *)

Lemma yolo_axis (c n : Q) (w : Z) :
  0 <= w -> meets_frame c n ->
  let lo := Z.max 0 (Py.int ((c - n / 2) * inject_Z w)) in
  let hi := Z.min w (Py.int ((c + n / 2) * inject_Z w)) in
  0 <= lo /\ lo <= hi /\ hi <= w.
Proof.
  intros Hw (Hn & Hl & Hr) lo hi.
  assert (HW : (0 <= inject_Z w)%Q).
  { change 0%Q with (inject_Z 0). now rewrite <- Zle_Qle. }
  assert (Hhalf : (n / 2 == n * (1 # 2))%Q) by (field; lra).
  rewrite Hhalf in Hl, Hr.
  assert (L : Py.int ((c - n / 2) * inject_Z w) <=
              Py.int ((c + n / 2) * inject_Z w)).
  { apply int_le. rewrite Hhalf. nra. }
  assert (U : Py.int ((c - n / 2) * inject_Z w) <= w).
  { rewrite <- (int_inject_Z w) at 2. apply int_le. rewrite Hhalf. nra. }
  assert (D : 0 <= Py.int ((c + n / 2) * inject_Z w)).
  { rewrite <- (int_inject_Z 0). apply int_le. rewrite Hhalf.
    change (inject_Z 0) with 0%Q. nra. }
  unfold lo, hi. lia.
Qed.

(** C9 (as stated, refuted): a box wholly to the right of the frame is
    returned with its left coordinate beyond the image width and beyond its
    own right coordinate. *)
Lemma from_yolo_bbox_outside_not_clamped :
  let r := from_yolo_bbox 2 (1 # 2) (1 # 2) (1 # 2) 100 100 in
  ~ (in_frame r 100 100 /\ well_formed r).
Proof.
  intros r [_ [Hx _]]. vm_compute in Hx. apply Hx. reflexivity.
Qed.

(** C9 (amended): [from_yolo_bbox] is total; its left and upper coordinates
    are at least 0 and its right and lower coordinates are at most the image
    width and height; and when the image dimensions and the box extents are
    non-negative and the box is not wholly beyond a border of the frame, all
    four coordinates lie inside the frame and [x1 <= x2], [y1 <= y2], so a
    box partly outside the frame is truncated to the image bounds. *)
Theorem from_yolo_bbox_one_sided_clamps (cx cy nw nh : Q) (w h : Z) :
  let r := from_yolo_bbox cx cy nw nh w h in
  ((0 <= x1 r)%Q /\ (0 <= y1 r)%Q /\
   (x2 r <= inject_Z w)%Q /\ (y2 r <= inject_Z h)%Q) /\
  (0 <= w -> 0 <= h -> meets_frame cx nw -> meets_frame cy nh ->
   in_frame r w h /\ well_formed r).
Proof.
  intros r. split.
  - unfold r, from_yolo_bbox. simpl.
    change 0%Q with (inject_Z 0). rewrite <- !Zle_Qle. lia.
  - intros Hw Hh Hx Hy.
    destruct (yolo_axis cx nw w Hw Hx) as (X1 & X2 & X3).
    destruct (yolo_axis cy nh h Hh Hy) as (Y1 & Y2 & Y3).
    unfold in_frame, well_formed, r, from_yolo_bbox. simpl.
    change 0%Q with (inject_Z 0). rewrite <- !Zle_Qle. lia.
Qed.

Lemma from_yolo_bbox_one_sided_clamps_witness :
  let r := from_yolo_bbox (9 # 10) (1 # 2) (4 # 10) (1 # 2) 100 100 in
  0 <= 100 /\ meets_frame (9 # 10) (4 # 10) /\ meets_frame (1 # 2) (1 # 2) /\
  in_frame r 100 100 /\ well_formed r.
Proof.
  intros r.
  assert (Hw : 0 <= 100) by discriminate.
  assert (Hx : meets_frame (9 # 10) (4 # 10))
    by (repeat split; vm_compute; discriminate).
  assert (Hy : meets_frame (1 # 2) (1 # 2))
    by (repeat split; vm_compute; discriminate).
  split; [exact Hw |]. split; [exact Hx |]. split; [exact Hy |].
  exact (proj2 (from_yolo_bbox_one_sided_clamps
                  (9 # 10) (1 # 2) (4 # 10) (1 # 2) 100 100) Hw Hw Hx Hy).
Defined.

(** ** Buckets *)

Ltac ltb_facts :=
  repeat match goal with
  | H : Py.ltb _ _ = true |- _ => apply ltb_true in H
  | H : Py.ltb _ _ = false |- _ => apply ltb_false in H
  end.

Lemma bucket_in_keys (q : Q) : bucket q ∈ bucket_keys.
Proof.
  unfold bucket, bucket_keys.
  repeat (match goal with |- context [Py.ltb ?a ?b] => destruct (Py.ltb a b) end);
    set_solver.
Qed.

(** C2: every IoU value goes to exactly one of the nine buckets, by
    half-open ranges: below 0.2 to bucket 2, from 0.2 up to but not
    including 0.3 to bucket 3, and so on, from 0.8 up to but not including
    0.9 to bucket 9, and 0.9 or more to bucket 10; the boundary value 0.3
    goes to bucket 4. *)
Theorem bucket_half_open_ranges (q : Q) :
  bucket q ∈ bucket_keys /\
  (bucket q = 2 <-> (q < 2 # 10)%Q) /\
  (bucket q = 3 <-> (2 # 10 <= q < 3 # 10)%Q) /\
  (bucket q = 4 <-> (3 # 10 <= q < 4 # 10)%Q) /\
  (bucket q = 5 <-> (4 # 10 <= q < 5 # 10)%Q) /\
  (bucket q = 6 <-> (5 # 10 <= q < 6 # 10)%Q) /\
  (bucket q = 7 <-> (6 # 10 <= q < 7 # 10)%Q) /\
  (bucket q = 8 <-> (7 # 10 <= q < 8 # 10)%Q) /\
  (bucket q = 9 <-> (8 # 10 <= q < 9 # 10)%Q) /\
  (bucket q = 10 <-> (9 # 10 <= q)%Q) /\
  bucket (3 # 10) = 4.
Proof.
  split; [apply bucket_in_keys |].
  unfold bucket.
  repeat (match goal with
          | |- context [Py.ltb q ?b] => destruct (Py.ltb q b) eqn:?
          end);
    ltb_facts;
    repeat split; intros; try reflexivity; try discriminate; lra.
Qed.

(** ** Counters *)

Lemma has_keys_initial : has_keys initial_counts.
Proof. unfold has_keys, initial_counts, bucket_keys. set_solver. Qed.

Lemma initial_counts_zero (k : Z) :
  k ∈ bucket_keys -> initial_counts !! k = Some 0.
Proof.
  unfold bucket_keys, initial_counts. intros H.
  repeat (apply elem_of_cons in H; destruct H as [-> | H]; [reflexivity |]).
  now apply elem_of_nil in H.
Qed.

Lemma has_keys_lookup (d : gmap Z Z) (k : Z) :
  has_keys d -> k ∈ bucket_keys -> d !! k = Some (count d k).
Proof.
  intros Hd Hk. unfold count.
  assert (Hin : k ∈ dom d) by (rewrite Hd; now apply elem_of_list_to_set).
  apply elem_of_dom in Hin. destruct Hin as [v ->]. reflexivity.
Qed.

Lemma add_at_dom (d d' : gmap Z Z) (k : Z) (b : bool) :
  add_at d k b = Ok d' -> dom d' = dom d.
Proof.
  unfold add_at. destruct (d !! k) as [v |] eqn:E; [| discriminate].
  intros [= <-]. apply dom_insert_lookup_L. now exists v.
Qed.

Lemma add_at_true (d : gmap Z Z) (k : Z) :
  has_keys d -> k ∈ bucket_keys ->
  add_at d k true = Ok (<[k := count d k + 1]> d).
Proof.
  intros Hd Hk. unfold add_at. now rewrite (has_keys_lookup d k Hd Hk).
Qed.

Lemma add_at_false (d : gmap Z Z) (k : Z) :
  has_keys d -> k ∈ bucket_keys -> add_at d k false = Ok d.
Proof.
  intros Hd Hk. unfold add_at. rewrite (has_keys_lookup d k Hd Hk).
  simpl. rewrite Z.add_0_r. f_equal. apply insert_id.
  now apply has_keys_lookup.
Qed.

Lemma has_keys_insert (d : gmap Z Z) (k v : Z) :
  has_keys d -> k ∈ bucket_keys -> has_keys (<[k := v]> d).
Proof.
  intros Hd Hk. unfold has_keys. rewrite <- Hd.
  apply dom_insert_lookup_L. rewrite (has_keys_lookup d k Hd Hk). now eexists.
Qed.

Lemma sum_counts_insert_notin (d : gmap Z Z) (k v : Z) (l : list Z) :
  k ∉ l -> sum_counts (<[k := v]> d) l = sum_counts d l.
Proof.
  induction l as [| j l IH]; intros Hk; [reflexivity |].
  apply not_elem_of_cons in Hk. destruct Hk as [Hne Hk].
  simpl. rewrite (IH Hk). unfold count.
  now rewrite lookup_insert_ne.
Qed.

Lemma sum_counts_insert_in (d : gmap Z Z) (k v : Z) (l : list Z) :
  NoDup l -> k ∈ l ->
  sum_counts (<[k := v]> d) l = sum_counts d l - count d k + v.
Proof.
  induction 1 as [| j l Hj Hnd IH]; intros Hk.
  - now apply elem_of_nil in Hk.
  - apply elem_of_cons in Hk. simpl. destruct Hk as [-> | Hk].
    + rewrite sum_counts_insert_notin by assumption.
      unfold count at 1. rewrite lookup_insert_eq. simpl. lia.
    + rewrite (IH Hk).
      assert (k <> j) by (intros ->; contradiction).
      unfold count at 1. rewrite lookup_insert_ne by assumption.
      fold (count d j). lia.
Qed.

Lemma NoDup_bucket_keys : NoDup bucket_keys.
Proof. unfold bucket_keys. apply NoDup_ListNoDup. repeat constructor; simpl; lia. Qed.

Lemma total_increment (d : gmap Z Z) (k : Z) :
  k ∈ bucket_keys -> total (<[k := count d k + 1]> d) = total d + 1.
Proof.
  intros Hk. unfold total.
  rewrite sum_counts_insert_in by (assumption || apply NoDup_bucket_keys). lia.
Qed.

Lemma total_initial : total initial_counts = 0.
Proof. reflexivity. Qed.

(** ** The loop of [main] *)

Lemma keyed_counted_once (cls_dir pred : string) (q : Q) (st : Counters) :
  keyed st -> keyed (counted_once cls_dir pred q st).
Proof.
  intros [H1 H2]. pose proof (bucket_in_keys q) as Hk.
  unfold counted_once. destruct (String.eqb pred cls_dir); split; simpl;
    auto using has_keys_insert.
Qed.

Lemma total_counted_once (cls_dir pred : string) (q : Q) (st : Counters) :
  let st' := counted_once cls_dir pred q st in
  total (fst st') + total (snd st') = total (fst st) + total (snd st) + 1.
Proof.
  pose proof (bucket_in_keys q) as Hk.
  unfold counted_once. destruct (String.eqb pred cls_dir); simpl;
    rewrite total_increment by assumption; lia.
Qed.

(** [counted_once] changes one counter, by one, in the bucket of [q]. *)
Lemma counted_once_effect (cls_dir pred : string) (q : Q) (st : Counters) :
  let st' := counted_once cls_dir pred q st in
  (pred = cls_dir ->
   snd st' = snd st /\
   count (fst st') (bucket q) = count (fst st) (bucket q) + 1 /\
   forall j, j <> bucket q -> count (fst st') j = count (fst st) j) /\
  (pred <> cls_dir ->
   fst st' = fst st /\
   count (snd st') (bucket q) = count (snd st) (bucket q) + 1 /\
   forall j, j <> bucket q -> count (snd st') j = count (snd st) j).
Proof.
  unfold counted_once.
  destruct (String.eqb_spec pred cls_dir) as [Heq | Hne]; simpl;
    (split; intros H; [try contradiction | try contradiction]);
    (split; [reflexivity |]); (split;
      [ unfold count at 1; now rewrite lookup_insert_eq
      | intros j Hj; unfold count at 1; rewrite lookup_insert_ne by congruence;
        reflexivity ]).
Qed.

(** An image that is classified is counted once. *)
Lemma process_file_classified (cls_dir pred : string) (e : Entry) (st : Counters) :
  keyed st -> is_png e = true -> valid_entry e -> classified e = Ok pred ->
  exists q img',
    distort_image (draws e) (opened e) = Ok (q, img') /\
    process_file cls_dir e st = Ok (counted_once cls_dir pred q st).
Proof.
  intros [H1 H2] Hpng Hv Hc. destruct st as [d dn]. simpl in H1, H2.
  destruct (Hv Hpng) as (Hw & Hh & Hr).
  destruct (distort_image_returns _ _ Hw Hh Hr)
    as (a & b & c & d0 & q & _ & _ & _ & Hd).
  exists q, {| width := c - a; height := d0 - b |}. split; [exact Hd |].
  pose proof (bucket_in_keys q) as Hk.
  unfold process_file. fold (is_png e). rewrite Hpng, Hd. cbn [bind].
  rewrite Hc. unfold counted_once. simpl fst; simpl snd.
  destruct (String.eqb pred cls_dir); simpl negb.
  - rewrite add_at_true by assumption. cbn [bind].
    rewrite add_at_false by assumption. reflexivity.
  - rewrite add_at_false by assumption. cbn [bind].
    rewrite add_at_true by assumption. reflexivity.
Qed.

(** An image whose classification raises is skipped. *)
Lemma process_file_raises (cls_dir : string) (e : Entry) (st : Counters) :
  is_png e = true -> valid_entry e -> raises e ->
  process_file cls_dir e st = Ok st.
Proof.
  intros Hpng Hv Hc. destruct st as [d dn].
  destruct (Hv Hpng) as (Hw & Hh & Hr).
  destruct (distort_image_returns _ _ Hw Hh Hr)
    as (a & b & c & d0 & q & _ & _ & _ & Hd).
  unfold process_file. fold (is_png e). rewrite Hpng, Hd. cbn [bind].
  unfold raises in Hc. destruct (classified e); [contradiction | reflexivity].
Qed.

(** A directory entry that is not an image is passed over. *)
Lemma process_file_other (cls_dir : string) (e : Entry) (st : Counters) :
  is_png e = false -> process_file cls_dir e st = Ok st.
Proof.
  intros Hpng. destruct st as [d dn].
  unfold process_file. fold (is_png e). now rewrite Hpng.
Qed.

Lemma process_file_step (cls_dir : string) (e : Entry) (st : Counters) :
  keyed st -> valid_entry e ->
  exists st',
    process_file cls_dir e st = Ok st' /\ keyed st' /\
    total (fst st') + total (snd st') =
    total (fst st) + total (snd st) + Z.b2z (classified_ok e) /\
    (raises e -> st' = st).
Proof.
  intros Hk Hv. unfold classified_ok.
  destruct (is_png e) eqn:Hpng.
  - destruct (classified e) as [pred | x] eqn:Hc.
    + destruct (process_file_classified cls_dir pred e st Hk Hpng Hv Hc)
        as (q & img' & _ & Hp).
      eexists. split; [exact Hp |]. split; [now apply keyed_counted_once |].
      split; [apply total_counted_once |].
      unfold raises. rewrite Hc. contradiction.
    + exists st. split.
      { apply process_file_raises; try assumption. unfold raises. now rewrite Hc. }
      split; [exact Hk |]. split; [simpl; lia | reflexivity].
  - exists st. split; [now apply process_file_other |].
    split; [exact Hk |]. split; [simpl; lia | reflexivity].
Qed.

Lemma process_files_run (cls_dir : string) (files : list Entry) :
  Forall valid_entry files ->
  forall st, keyed st ->
  exists st',
    process_files cls_dir files st = Ok st' /\ keyed st' /\
    total (fst st') + total (snd st') =
    total (fst st) + total (snd st) + successes_in files /\
    (Forall raises files -> st' = st).
Proof.
  induction 1 as [| e files Hv _ IH]; intros st Hk.
  - exists st. repeat split; try apply Hk. simpl. lia.
  - destruct (process_file_step cls_dir e st Hk Hv) as (st1 & E1 & K1 & T1 & R1).
    destruct (IH st1 K1) as (st2 & E2 & K2 & T2 & R2).
    exists st2. cbn [process_files]. rewrite E1. cbn [bind].
    split; [exact E2 |]. split; [exact K2 |]. split.
    + simpl successes_in. lia.
    + intros Hr. apply Forall_cons in Hr. destruct Hr as [Hr1 Hr2].
      rewrite (R2 Hr2). now apply R1.
Qed.

Lemma process_dirs_run (dirs : list (string * list Entry)) :
  valid_dataset dirs ->
  forall st, keyed st ->
  exists st',
    process_dirs dirs st = Ok st' /\ keyed st' /\
    total (fst st') + total (snd st') =
    total (fst st) + total (snd st) + successes dirs /\
    (all_raise dirs -> st' = st).
Proof.
  induction 1 as [| [cls_dir files] dirs Hv _ IH]; intros st Hk.
  - exists st. repeat split; try apply Hk. simpl. lia.
  - simpl in Hv.
    destruct (process_files_run cls_dir files Hv st Hk)
      as (st1 & E1 & K1 & T1 & R1).
    destruct (IH st1 K1) as (st2 & E2 & K2 & T2 & R2).
    exists st2. cbn [process_dirs]. rewrite E1. cbn [bind].
    split; [exact E2 |]. split; [exact K2 |]. split.
    + simpl successes. lia.
    + intros Hr. apply Forall_cons in Hr. destruct Hr as [Hr1 Hr2].
      rewrite (R2 Hr2). now apply R1.
Qed.

Lemma main_run (dirs : list (string * list Entry)) :
  valid_dataset dirs ->
  exists d d_not,
    main dirs = Ok (d, d_not) /\ has_keys d /\ has_keys d_not /\
    total d + total d_not = successes dirs /\
    (all_raise dirs -> d = initial_counts /\ d_not = initial_counts).
Proof.
  intros Hv.
  destruct (process_dirs_run dirs Hv (initial_counts, initial_counts))
    as ([d dn] & E & [K1 K2] & T & R).
  { split; apply has_keys_initial. }
  exists d, dn. split; [exact E |]. split; [exact K1 |]. split; [exact K2 |].
  split.
  - simpl in T. rewrite total_initial in T. lia.
  - intros Hr. specialize (R Hr). now inversion R.
Qed.

Lemma count_initial (k : Z) : count initial_counts k = 0.
Proof.
  unfold count. destruct (initial_counts !! k) as [v |] eqn:E; [| reflexivity].
  assert (Hk : k ∈ bucket_keys).
  { apply (elem_of_list_to_set (C := gset Z)).
    rewrite <- has_keys_initial. apply elem_of_dom. now exists v. }
  rewrite (initial_counts_zero k Hk) in E. now injection E as <-.
Qed.

Lemma process_file_dom (cls_dir : string) (e : Entry) (st st' : Counters) :
  process_file cls_dir e st = Ok st' ->
  dom (fst st') = dom (fst st) /\ dom (snd st') = dom (snd st).
Proof.
  destruct st as [d dn]. unfold process_file.
  destruct (endswith (file e) ".png"); [| now intros [= <-]].
  destruct (distort_image (draws e) (opened e)) as [[q img'] | x];
    cbn [bind]; [| discriminate].
  destruct (classified e) as [pred | x]; [| now intros [= <-]].
  destruct (add_at d (bucket q) (String.eqb pred cls_dir)) as [d1 | x] eqn:E1;
    cbn [bind]; [| discriminate].
  destruct (add_at dn (bucket q) (negb (String.eqb pred cls_dir)))
    as [dn1 | x] eqn:E2; cbn [bind]; [| discriminate].
  intros [= <-]. simpl. split; eapply add_at_dom; eassumption.
Qed.

(** Decides the validity of a concrete dataset. *)
Ltac valid_concrete :=
  repeat first
    [ exact I
    | apply Forall_nil
    | apply Forall_cons; split
    | progress simpl
    | match goal with
      | |- valid_entry _ =>
          let H := fresh in
          intros H; vm_compute in H |- *;
          first [ discriminate H | repeat split; discriminate ]
      end ].

(** ** Claims about the harness *)

(** C1: in a run over decodable images, an image whose classification
    succeeds adds one to exactly one counter, the correct or the incorrect
    counter of the bucket of its IoU according to the exact match of the
    predicted label with the directory name, and an image whose
    classification raises leaves every counter as it was; at the end of the
    run the counters of all buckets sum to the number of successfully
    classified images, and a run in which every classification raises
    returns with all counters zero. *)
Theorem harness_counts_each_classified_image_once
    (dirs : list (string * list Entry)) :
  valid_dataset dirs ->
  (forall cls_dir e st, keyed st -> is_png e = true -> valid_entry e ->
     match classified e with
     | Ok pred =>
         exists q img',
           distort_image (draws e) (opened e) = Ok (q, img') /\
           process_file cls_dir e st = Ok (counted_once cls_dir pred q st)
     | Raise _ => process_file cls_dir e st = Ok st
     end) /\
  (forall cls_dir pred q st,
     let st' := counted_once cls_dir pred q st in
     (pred = cls_dir ->
      snd st' = snd st /\
      count (fst st') (bucket q) = count (fst st) (bucket q) + 1 /\
      forall j, j <> bucket q -> count (fst st') j = count (fst st) j) /\
     (pred <> cls_dir ->
      fst st' = fst st /\
      count (snd st') (bucket q) = count (snd st) (bucket q) + 1 /\
      forall j, j <> bucket q -> count (snd st') j = count (snd st) j)) /\
  (exists d d_not,
     main dirs = Ok (d, d_not) /\ total d + total d_not = successes dirs) /\
  (all_raise dirs ->
   exists d d_not,
     main dirs = Ok (d, d_not) /\
     forall k, count d k = 0 /\ count d_not k = 0).
Proof.
  intros Hv. split; [| split; [| split]].
  - intros cls_dir e st Hk Hpng He.
    destruct (classified e) as [pred | x] eqn:Hc.
    + now apply process_file_classified.
    + apply process_file_raises; try assumption. unfold raises. now rewrite Hc.
  - apply counted_once_effect.
  - destruct (main_run dirs Hv) as (d & dn & E & _ & _ & T & _).
    now exists d, dn.
  - intros Hr. destruct (main_run dirs Hv) as (d & dn & E & _ & _ & _ & R).
    destruct (R Hr) as [-> ->].
    exists initial_counts, initial_counts. split; [exact E |].
    intros k. split; apply count_initial.
Qed.

Lemma harness_counts_each_classified_image_once_witness :
  valid_dataset sample_dataset /\
  exists d d_not,
    main sample_dataset = Ok (d, d_not) /\
    total d + total d_not = successes sample_dataset.
Proof.
  assert (Hv : valid_dataset sample_dataset).
  { unfold valid_dataset, sample_dataset. valid_concrete. }
  split; [exact Hv |].
  exact (proj1 (proj2 (proj2 (harness_counts_each_classified_image_once
                                sample_dataset Hv)))).
Defined.

(** C10: both counter mappings start with exactly the keys 2 to 10, each at
    0; processing an entry never adds or removes a key; so the mappings
    reported at the end of a run have exactly these nine keys, and a run
    over an empty dataset reports the initial mappings, all counters zero. *)
Theorem bucket_key_set_is_fixed (dirs : list (string * list Entry)) :
  valid_dataset dirs ->
  (has_keys initial_counts /\
   forall k, k ∈ bucket_keys -> initial_counts !! k = Some 0) /\
  (forall cls_dir e st st',
     process_file cls_dir e st = Ok st' ->
     dom (fst st') = dom (fst st) /\ dom (snd st') = dom (snd st)) /\
  (exists d d_not,
     main dirs = Ok (d, d_not) /\ has_keys d /\ has_keys d_not) /\
  main [] = Ok (initial_counts, initial_counts).
Proof.
  intros Hv. split; [| split; [| split]].
  - split; [apply has_keys_initial | apply initial_counts_zero].
  - apply process_file_dom.
  - destruct (main_run dirs Hv) as (d & dn & E & K1 & K2 & _).
    now exists d, dn.
  - reflexivity.
Qed.

Lemma bucket_key_set_is_fixed_witness :
  valid_dataset sample_dataset /\
  exists d d_not,
    main sample_dataset = Ok (d, d_not) /\ has_keys d /\ has_keys d_not.
Proof.
  assert (Hv : valid_dataset sample_dataset).
  { unfold valid_dataset, sample_dataset. valid_concrete. }
  split; [exact Hv |].
  exact (proj1 (proj2 (proj2 (bucket_key_set_is_fixed sample_dataset Hv)))).
Defined.

(** ** Worked examples *)

Example iou_overlapping_squares :
  iou (XYXY 0 0 2 2) (XYXY 1 1 3 3) = Ok (1 # 7)%Q.
Proof. reflexivity. Qed.

(** Candidates 1 and 2 tie for the greatest IoU: the first of them wins. *)
Example find_closest_iou_tie :
  exists q,
    find_closest_iou (XYXY 0 0 2 2)
      [XYXY 1 1 3 3; XYXY 0 0 2 2; XYXY 0 0 2 2] = Ok (1%nat, q) /\
    (q == 1)%Q.
Proof. eexists. split; reflexivity. Qed.

(** Away from the origin the upper clamp, being the extent of the box, can
    fall below the lower coordinate. *)
Example distort_away_from_origin :
  distort {| r_x := 1 # 2; r_y := 1 # 2; k_x := true; k_y := true |}
          10 10 20 30 = (13, 16, 10, 20).
Proof. reflexivity. Qed.

Example main_sample_dataset :
  exists d d_not,
    main sample_dataset = Ok (d, d_not) /\
    map (count d) bucket_keys = [0; 0; 0; 0; 1; 0; 0; 0; 0] /\
    map (count d_not) bucket_keys = [0; 0; 0; 0; 0; 0; 0; 1; 0].
Proof. eexists _, _. split; [reflexivity |]. split; reflexivity. Qed.

(** * Further properties of the code *)

(** ** More on [iou] *)

Lemma overlap_pos (a1 a2 b1 b2 : Q) :
  (0 < overlap a1 a2 b1 b2)%Q <->
  ((a1 < a2)%Q /\ (a1 < b2)%Q /\ (b1 < a2)%Q /\ (b1 < b2)%Q).
Proof. unfold overlap. split; intros H; py_cases; lra. Qed.

Lemma product_pos (p q : Q) :
  (0 <= p)%Q -> (0 <= q)%Q -> ((0 < p * q)%Q <-> (0 < p)%Q /\ (0 < q)%Q).
Proof. intros Hp Hq. split; intros H; nra. Qed.

Lemma inter_area_pos (a b : BBox2D) :
  (0 < inter_area a b)%Q <-> overlapping a b.
Proof.
  unfold inter_area, overlapping.
  rewrite product_pos by apply overlap_nonneg.
  now rewrite !overlap_pos.
Qed.

Lemma overlapping_well_formed (a b : BBox2D) :
  overlapping a b -> well_formed a /\ well_formed b.
Proof. unfold overlapping, well_formed. intros H. repeat split; lra. Qed.

(** The two ways [iou] can come out. *)
Lemma iou_result_cases (a b : BBox2D) :
  exists q, iou a b = Ok q /\
            ((~ overlapping a b /\ (q == 0)%Q) \/
             (overlapping a b /\ (0 < q)%Q /\ (q <= 1)%Q)).
Proof.
  destruct (Qlt_le_dec 0 (inter_area a b)) as [Hpos | Hle].
  - pose proof Hpos as Hov. apply inter_area_pos in Hov.
    destruct (overlapping_well_formed a b Hov) as [Ha Hb].
    pose proof (inter_area_le_l a b Ha) as H1.
    pose proof (inter_area_le_r a b Hb) as H2.
    assert (Hu : (0 < union_area a b)%Q) by (unfold union_area; lra).
    destruct (iou_cases a b) as [[Z0 _] | [_ E]]; [lra |].
    eexists. split; [exact E |]. right. split; [exact Hov |]. split.
    + apply Qlt_shift_div_l; [exact Hu | lra].
    + apply Qle_shift_div_r; [exact Hu |]. unfold union_area. lra.
  - assert (Hno : ~ overlapping a b).
    { intros H. apply inter_area_pos in H. lra. }
    destruct (iou_zero_inter a b) as (q & Hq & Hz).
    + pose proof (inter_area_nonneg a b). lra.
    + exists q. split; [exact Hq |]. left. split; assumption.
Qed.

(** X1: the result of [iou] lies between 0 and 1 for all boxes, also for
    boxes whose coordinates are reversed. *)
Theorem iou_bounds_any_boxes (a b : BBox2D) :
  exists q, iou a b = Ok q /\ (0 <= q <= 1)%Q.
Proof.
  destruct (iou_result_cases a b) as (q & Hq & [[_ Hz] | (_ & Hp & H1)]);
    exists q; (split; [exact Hq | lra]).
Qed.

(** X2: the result of [iou] is positive exactly when the two boxes share a
    region of positive area; boxes that are apart, that only touch, or one of
    which is reversed or flat, give 0. *)
Theorem iou_positive_iff_overlapping (a b : BBox2D) :
  exists q, iou a b = Ok q /\
            ((0 < q)%Q <-> overlapping a b) /\
            ((q == 0)%Q <-> ~ overlapping a b).
Proof.
  destruct (iou_result_cases a b) as (q & Hq & [[Hno Hz] | (Hov & Hp & _)]);
    exists q; (split; [exact Hq |]); split; split; intros H;
    try tauto; try lra.
Qed.

Lemma overlap_same (a1 a2 b1 b2 : Q) :
  (a1 == b1)%Q -> (a2 == b2)%Q -> (a1 <= a2)%Q ->
  (overlap a1 a2 b1 b2 == a2 - a1)%Q.
Proof. intros H1 H2 H. unfold overlap. py_cases; lra. Qed.





Lemma iou_same_box_one (a b : BBox2D) (q : Q) :
  same_box a b -> (x1 a < x2 a)%Q -> (y1 a < y2 a)%Q ->
  iou a b = Ok q -> (q == 1)%Q.
Proof.
  intros (Ex1 & Ey1 & Ex2 & Ey2) Hx Hy Hq.
  assert (I : (inter_area a b == area a)%Q).
  { unfold inter_area, area. rewrite !overlap_same by lra. reflexivity. }
  assert (B : (area b == area a)%Q).
  { unfold area. rewrite Ex1, Ex2, Ey1, Ey2. reflexivity. }
  assert (U : (union_area a b == area a)%Q).
  { unfold union_area. rewrite I, B. ring. }
  assert (P : (0 < area a)%Q) by (unfold area; nra).
  destruct (iou_cases a b) as [[Z0 _] | [N E]]; [lra |].
  rewrite E in Hq. injection Hq as <-. rewrite I, U. field. lra.
Qed.



(** When intersection and union both change by the same non-zero factor,
    [iou] returns an equal value. *)
Lemma iou_same_ratio (a b a' b' : BBox2D) (k : Q) :
  ~ (k == 0)%Q ->
  (inter_area a' b' == k * inter_area a b)%Q ->
  (union_area a' b' == k * union_area a b)%Q ->
  exists q q', iou a b = Ok q /\ iou a' b' = Ok q' /\ (q == q')%Q.
Proof.
  intros Hk HI HU.
  destruct (iou_cases a b) as [[Z1 E1] | [N1 E1]];
    destruct (iou_cases a' b') as [[Z2 E2] | [N2 E2]];
    rewrite E1, E2; do 2 eexists; (split; [reflexivity |]);
    (split; [reflexivity |]).
  - reflexivity.
  - exfalso. apply N2. rewrite HU, Z1. ring.
  - exfalso. rewrite HU in Z2. apply Qmult_integral in Z2. tauto.
  - rewrite HI, HU. field. split; assumption.
Qed.

Lemma overlap_translate (a1 a2 b1 b2 t : Q) :
  (overlap (a1 + t) (a2 + t) (b1 + t) (b2 + t) == overlap a1 a2 b1 b2)%Q.
Proof. unfold overlap. py_cases; lra. Qed.


(** X4: [iou] depends only on the relative position of the boxes: moving
    both boxes by the same offset does not change the result. *)
Theorem iou_translation_invariant (tx ty : Q) (a b : BBox2D) :
  exists q q',
    iou a b = Ok q /\ iou (translate tx ty a) (translate tx ty b) = Ok q' /\
    (q == q')%Q.
Proof.
  apply (iou_same_ratio a b _ _ 1%Q); [discriminate | |].
  - unfold inter_area, translate. simpl. rewrite !overlap_translate. ring.
  - unfold union_area, inter_area, area, translate. simpl.
    rewrite !overlap_translate. ring.
Qed.



Lemma overlap_inner (a1 a2 b1 b2 : Q) :
  (a1 <= b1)%Q -> (b1 <= b2)%Q -> (b2 <= a2)%Q ->
  (overlap a1 a2 b1 b2 == b2 - b1)%Q.
Proof. intros H1 H2 H3. unfold overlap. py_cases; lra. Qed.

Lemma inter_area_contained (a b : BBox2D) :
  well_formed b -> contains a b -> (inter_area a b == area b)%Q.
Proof.
  intros [Wx Wy] (C1 & C2 & C3 & C4). unfold inter_area, area.
  now rewrite !overlap_inner by assumption.
Qed.

Lemma iou_contained (a b : BBox2D) (q : Q) :
  well_formed b -> contains a b -> (0 < area a)%Q ->
  iou a b = Ok q -> (q == area b / area a)%Q.
Proof.
  intros Wb C Ha Hq.
  pose proof (inter_area_contained a b Wb C) as I.
  assert (U : (union_area a b == area a)%Q).
  { unfold union_area. rewrite I. ring. }
  destruct (iou_cases a b) as [[Z0 _] | [N E]]; [lra |].
  rewrite E in Hq. injection Hq as <-. now rewrite I, U.
Qed.



(** ** More on [find_closest_iou] *)

Lemma find_closest_iou_returns (t : BBox2D) (cs : list BBox2D) :
  cs <> [] ->
  exists i q, find_closest_iou t cs = Ok (i, q) /\ first_best t cs i q.
Proof.
  intros Hne. destruct cs as [| c0 cs]; [contradiction |].
  destruct (iou_returns t c0) as [q0 Hq0].
  unfold find_closest_iou. cbn [head_item bind tl]. rewrite Hq0. cbn [bind].
  apply (closest_loop_first_best t cs [c0] 0%nat 0%nat q0 eq_refl).
  now apply first_best_single.
Qed.

Lemma iou_le_1 (a b : BBox2D) (q : Q) : iou a b = Ok q -> (0 <= q <= 1)%Q.
Proof.
  intros Hq. destruct (iou_result_cases a b) as (q' & Hq' & H).
  rewrite Hq in Hq'. injection Hq' as <-.
  destruct H as [[_ Hz] | (_ & Hp & H1)]; lra.
Qed.

(** X7: on a non-empty list [find_closest_iou] returns an index inside the
    list and an IoU between 0 and 1. *)
Theorem find_closest_iou_in_range (t : BBox2D) (cs : list BBox2D) :
  cs <> [] ->
  exists i q,
    find_closest_iou t cs = Ok (i, q) /\
    (i < length cs)%nat /\ (0 <= q <= 1)%Q.
Proof.
  intros Hne.
  destruct (find_closest_iou_returns t cs Hne) as (i & q & E & [[c [Hi Hc]] _]).
  exists i, q. split; [exact E |]. split.
  - eapply lookup_lt_Some. exact Hi.
  - eapply iou_le_1. exact Hc.
Qed.

Lemma find_closest_iou_in_range_witness :
  let cs := [XYXY 5 5 6 6; XYXY 1 1 3 3] in
  cs <> [] /\
  exists i q,
    find_closest_iou (XYXY 0 0 2 2) cs = Ok (i, q) /\
    (i < length cs)%nat /\ (0 <= q <= 1)%Q.
Proof.
  intros cs. assert (H : cs <> []) by discriminate.
  split; [exact H |]. exact (find_closest_iou_in_range (XYXY 0 0 2 2) cs H).
Defined.



(** ** [crop] and [from_yolo_bbox] *)



(** X10: cropping an image to the box that [from_yolo_bbox] computes for the
    image's own dimensions succeeds whenever the normalized box is not wholly
    beyond a border of the frame, and the crop is no larger than the
    image. *)
Theorem crop_from_yolo_bbox_within_image (img : Image) (cx cy nw nh : Q) :
  0 <= width img -> 0 <= height img ->
  meets_frame cx nw -> meets_frame cy nh ->
  exists img',
    crop_bbox img (from_yolo_bbox cx cy nw nh (width img) (height img)) = Ok img' /\
    0 <= width img' <= width img /\ 0 <= height img' <= height img.
Proof.
  intros Hw Hh Hx Hy.
  destruct (yolo_axis cx nw (width img) Hw Hx) as (X1 & X2 & X3).
  destruct (yolo_axis cy nh (height img) Hh Hy) as (Y1 & Y2 & Y3).
  unfold crop_bbox, from_yolo_bbox. cbn [x1 y1 x2 y2].
  rewrite !int_inject_Z. unfold crop.
  match goal with |- context [(?c <? ?a) || (?d <? ?b)] =>
    replace ((c <? a) || (d <? b)) with false
      by (symmetry; apply orb_false_intro; apply Z.ltb_ge; assumption)
  end.
  eexists. split; [reflexivity |]. simpl. lia.
Qed.

Lemma crop_from_yolo_bbox_within_image_witness :
  let img := {| width := 100; height := 50 |} in
  0 <= width img /\ 0 <= height img /\
  meets_frame (9 # 10) (4 # 10) /\ meets_frame (1 # 2) (1 # 2) /\
  exists img',
    crop_bbox img (from_yolo_bbox (9 # 10) (1 # 2) (4 # 10) (1 # 2)
                     (width img) (height img)) = Ok img' /\
    0 <= width img' <= width img /\ 0 <= height img' <= height img.
Proof.
  intros img.
  assert (Hw : 0 <= width img) by discriminate.
  assert (Hh : 0 <= height img) by discriminate.
  assert (Hx : meets_frame (9 # 10) (4 # 10))
    by (repeat split; vm_compute; discriminate).
  assert (Hy : meets_frame (1 # 2) (1 # 2))
    by (repeat split; vm_compute; discriminate).
  split; [exact Hw |]. split; [exact Hh |].
  split; [exact Hx |]. split; [exact Hy |].
  exact (crop_from_yolo_bbox_within_image img _ _ _ _ Hw Hh Hx Hy).
Defined.

Lemma int_nonneg (q : Q) : (0 <= q)%Q -> 0 <= Py.int q.
Proof. intros H. rewrite <- (int_inject_Z 0). now apply int_le. Qed.

Lemma int_le_Z (q : Q) (z : Z) : (q <= inject_Z z)%Q -> Py.int q <= z.
Proof. intros H. rewrite <- (int_inject_Z z). now apply int_le. Qed.

(** X11: for a normalized box inside the unit frame the clamps of
    [from_yolo_bbox] change nothing: each coordinate is the truncated product
    of the normalized edge with the image width or height. *)
Theorem from_yolo_bbox_inside_unclamped (cx cy nw nh : Q) (w h : Z) :
  0 <= w -> 0 <= h -> inside_unit cx nw -> inside_unit cy nh ->
  from_yolo_bbox cx cy nw nh w h =
    XYXY (inject_Z (Py.int ((cx - nw / 2) * inject_Z w)))
         (inject_Z (Py.int ((cy - nh / 2) * inject_Z h)))
         (inject_Z (Py.int ((cx + nw / 2) * inject_Z w)))
         (inject_Z (Py.int ((cy + nh / 2) * inject_Z h))).
Proof.
  intros Hw Hh [Hx1 Hx2] [Hy1 Hy2].
  assert (HW : (0 <= inject_Z w)%Q)
    by (change 0%Q with (inject_Z 0); now rewrite <- Zle_Qle).
  assert (HH : (0 <= inject_Z h)%Q)
    by (change 0%Q with (inject_Z 0); now rewrite <- Zle_Qle).
  unfold from_yolo_bbox.
  rewrite (Z.max_r 0 (Py.int ((cx - nw / 2) * inject_Z w)))
    by (apply int_nonneg; nra).
  rewrite (Z.max_r 0 (Py.int ((cy - nh / 2) * inject_Z h)))
    by (apply int_nonneg; nra).
  rewrite (Z.min_r w (Py.int ((cx + nw / 2) * inject_Z w)))
    by (apply int_le_Z; nra).
  rewrite (Z.min_r h (Py.int ((cy + nh / 2) * inject_Z h)))
    by (apply int_le_Z; nra).
  reflexivity.
Qed.

Lemma from_yolo_bbox_inside_unclamped_witness :
  0 <= 640 /\ 0 <= 480 /\
  inside_unit (1 # 2) (1 # 4) /\ inside_unit (1 # 4) (1 # 3) /\
  from_yolo_bbox (1 # 2) (1 # 4) (1 # 4) (1 # 3) 640 480 =
    XYXY 240 40 400 200.
Proof.
  assert (Hw : 0 <= 640) by discriminate.
  assert (Hh : 0 <= 480) by discriminate.
  assert (Hx : inside_unit (1 # 2) (1 # 4))
    by (split; vm_compute; discriminate).
  assert (Hy : inside_unit (1 # 4) (1 # 3))
    by (split; vm_compute; discriminate).
  split; [exact Hw |]. split; [exact Hh |].
  split; [exact Hx |]. split; [exact Hy |].
  exact (from_yolo_bbox_inside_unclamped _ _ _ _ 640 480 Hw Hh Hx Hy).
Defined.

(** X12: the normalized box that covers the whole frame is converted to the
    whole image, whatever the image dimensions. *)
Theorem from_yolo_bbox_full_frame (w h : Z) :
  from_yolo_bbox (1 # 2) (1 # 2) 1 1 w h =
    XYXY (inject_Z 0) (inject_Z 0) (inject_Z w) (inject_Z h).
Proof.
  unfold from_yolo_bbox.
  rewrite (int_eq (((1 # 2) - 1 / 2) * inject_Z w) (inject_Z 0)) by (simpl; field).
  rewrite (int_eq (((1 # 2) - 1 / 2) * inject_Z h) (inject_Z 0)) by (simpl; field).
  rewrite (int_eq (((1 # 2) + 1 / 2) * inject_Z w) (inject_Z w)) by field.
  rewrite (int_eq (((1 # 2) + 1 / 2) * inject_Z h) (inject_Z h)) by field.
  rewrite !int_inject_Z.
  rewrite Z.max_id, !Z.min_id. reflexivity.
Qed.

(** X13: a normalized box wholly beyond the right or the left border of the
    frame is converted to a box whose right coordinate is below its left
    coordinate, and the IoU of that box with any box is 0. *)
Theorem from_yolo_bbox_beyond_border_reversed (cx cy nw nh : Q) (w h : Z) :
  0 <= w ->
  (inject_Z (w + 1) <= (cx - nw / 2) * inject_Z w)%Q \/
  ((cx + nw / 2) * inject_Z w <= inject_Z (-1))%Q ->
  let r := from_yolo_bbox cx cy nw nh w h in
  (x2 r < x1 r)%Q /\
  forall b, exists q, iou r b = Ok q /\ (q == 0)%Q.
Proof.
  intros Hw Hout r.
  assert (Hrev : (x2 r < x1 r)%Q).
  { unfold r, from_yolo_bbox. cbn [x1 x2]. rewrite <- Zlt_Qlt.
    destruct Hout as [H | H].
    - apply int_le in H. rewrite int_inject_Z in H. lia.
    - apply int_le in H. rewrite int_inject_Z in H. lia. }
  split; [exact Hrev |].
  intros b. destruct (iou_result_cases r b) as (q & Hq & [[_ Hz] | (Hov & _)]).
  - now exists q.
  - exfalso. destruct Hov as [(Hx & _) _]. lra.
Qed.

Lemma from_yolo_bbox_beyond_border_reversed_witness :
  let r := from_yolo_bbox 2 (1 # 2) (1 # 2) (1 # 2) 100 100 in
  0 <= 100 /\
  (inject_Z (100 + 1) <= (2 - (1 # 2) / 2) * inject_Z 100)%Q /\
  (x2 r < x1 r)%Q.
Proof.
  intros r.
  assert (Hw : 0 <= 100) by discriminate.
  assert (H : (inject_Z (100 + 1) <= (2 - (1 # 2) / 2) * inject_Z 100)%Q)
    by (vm_compute; discriminate).
  split; [exact Hw |]. split; [exact H |].
  exact (proj1 (from_yolo_bbox_beyond_border_reversed
                  2 (1 # 2) (1 # 2) (1 # 2) 100 100 Hw (or_introl H))).
Defined.

(** ** More on [distort] *)

Lemma int_lt (p q : Q) : (0 <= p)%Q -> (p + 1 <= q)%Q -> Py.int p < Py.int q.
Proof.
  intros Hp Hq. rewrite !int_nonneg_floor by lra.
  pose proof (Qfloor_le p) as Lp. pose proof (Qlt_floor q) as Lq.
  rewrite inject_Z_plus in Lq. change (inject_Z 1) with 1%Q in Lq.
  rewrite Zlt_Qlt. lra.
Qed.

(** X14: whatever the draws and the box, the lower coordinates that
    [distort] returns are at least 0 and the upper coordinates are at most
    the truncated width and height of the box. *)
Theorem distort_output_range (rnd : Draws) (x1 y1 x2 y2 : Q) :
  exists a b c d,
    distort rnd x1 y1 x2 y2 = (a, b, c, d) /\
    0 <= a /\ 0 <= b /\ c <= Py.int (x2 - x1) /\ d <= Py.int (y2 - y1).
Proof.
  unfold distort. do 4 eexists. split; [reflexivity |].
  repeat split.
  - apply int_nonneg. py_cases; lra.
  - apply int_nonneg. py_cases; lra.
  - apply int_le. py_cases; lra.
  - apply int_le. py_cases; lra.
Qed.

(** Along one axis: a box whose lower coordinate exceeds 1.6 times its
    extent by 1 is returned reversed. *)
Lemma distort_axis_reversed (r : Q) (k : bool) (lo hi : Q) :
  (0 <= r <= 1)%Q -> (lo <= hi)%Q -> ((16 # 10) * (hi - lo) + 1 <= lo)%Q ->
  let d := displacement r k (hi - lo) in
  Py.int (Py.min (hi - lo) (hi + d)) < Py.int (Py.max 0 (lo + d)).
Proof.
  intros Hr Hlh Hfar d.
  assert (Hd : (- ((6 # 10) * (hi - lo)) <= d <= (6 # 10) * (hi - lo))%Q).
  { pose proof (displacement_bound r k (hi - lo) Hr) as B.
    apply Qabs_Qle_condition in B; [| lra]. fold d in B. lra. }
  apply Z.le_lt_trans with (Py.int (hi - lo)).
  - apply int_le. py_cases; lra.
  - apply int_lt; [lra |]. py_cases; lra.
Qed.

(** X15: for a box whose left coordinate exceeds 1.6 times its width by at
    least 1, every draw makes [distort] return a right coordinate below the
    left one, since the right coordinate is clamped to the width of the box;
    the image library then refuses the crop. *)
Theorem distort_far_from_origin_reversed (rnd : Draws) (x1 y1 x2 y2 : Q) :
  unit_draws rnd -> (x1 <= x2)%Q -> ((16 # 10) * (x2 - x1) + 1 <= x1)%Q ->
  exists a b c d,
    distort rnd x1 y1 x2 y2 = (a, b, c, d) /\ c < a /\
    forall img, crop img (a, b, c, d) = Raise ValueError.
Proof.
  intros [Hx _] Hw Hfar.
  pose proof (distort_axis_reversed (r_x rnd) (k_x rnd) x1 x2 Hx Hw Hfar) as H.
  cbv zeta in H. unfold displacement in H.
  unfold distort. do 4 eexists. split; [reflexivity |].
  split; [exact H |].
  intros img. unfold crop. apply Z.ltb_lt in H. now rewrite H.
Qed.

Lemma distort_far_from_origin_reversed_witness :
  let rnd := {| r_x := 1 # 2; r_y := 1 # 2; k_x := false; k_y := true |} in
  unit_draws rnd /\ (20 <= 30)%Q /\ ((16 # 10) * (30 - 20) + 1 <= 20)%Q /\
  exists a b c d,
    distort rnd 20 0 30 10 = (a, b, c, d) /\ c < a /\
    forall img, crop img (a, b, c, d) = Raise ValueError.
Proof.
  intros rnd.
  assert (Hr : unit_draws rnd) by (repeat split; vm_compute; discriminate).
  assert (Hw : (20 <= 30)%Q) by (vm_compute; discriminate).
  assert (Hf : ((16 # 10) * (30 - 20) + 1 <= 20)%Q) by (vm_compute; discriminate).
  split; [exact Hr |]. split; [exact Hw |]. split; [exact Hf |].
  exact (distort_far_from_origin_reversed rnd 20 0 30 10 Hr Hw Hf).
Defined.

(** ** More on [distort_image] *)

Lemma int_le_self (q : Q) : (0 <= q)%Q -> (inject_Z (Py.int q) <= q)%Q.
Proof. intros H. rewrite int_nonneg_floor by assumption. apply Qfloor_le. Qed.

(** Along one axis of the full-image box [0 .. n], at least four tenths of
    the extent, truncated, remain between the two returned coordinates. *)
Lemma distort_axis_keeps (r : Q) (k : bool) (n : Z) :
  0 <= n -> (0 <= r <= 1)%Q ->
  let lo := inject_Z 0 in
  let hi := inject_Z n in
  let d := displacement r k (hi - lo) in
  Py.int ((4 # 10) * hi) <=
  Py.int (Py.min (hi - lo) (hi + d)) - Py.int (Py.max 0 (lo + d)).
Proof.
  intros Hn Hr lo hi d.
  assert (Hhi : (0 <= hi)%Q).
  { unfold hi. change 0%Q with (inject_Z 0). now rewrite <- Zle_Qle. }
  assert (Hlo : (lo == 0)%Q) by reflexivity.
  assert (Hd : (- ((6 # 10) * hi) <= d <= (6 # 10) * hi)%Q).
  { pose proof (displacement_bound r k (hi - lo) Hr) as B.
    apply Qabs_Qle_condition in B; [| lra]. fold d in B. lra. }
  assert (Hcase :
    ((Py.max 0 (lo + d) == 0)%Q /\
     ((4 # 10) * hi <= Py.min (hi - lo) (hi + d))%Q) \/
    ((Py.min (hi - lo) (hi + d) == hi)%Q /\
     (0 <= Py.max 0 (lo + d) <= (6 # 10) * hi)%Q)) by (py_cases; lra).
  destruct Hcase as [[HA HC] | [HC HA]].
  - rewrite (int_eq _ _ HA). change (Py.int 0) with 0.
    rewrite Z.sub_0_r. now apply int_le.
  - rewrite (int_eq _ _ HC). unfold hi at 2. rewrite int_inject_Z.
    pose proof (int_le_self (Py.max 0 (lo + d)) ltac:(lra)) as LA.
    pose proof (int_le_self ((4 # 10) * hi) ltac:(lra)) as LB.
    rewrite Zle_Qle. unfold Z.sub. rewrite inject_Z_plus, inject_Z_opp.
    fold hi. lra.
Qed.

(** The shape of what [distort_image] returns. *)
Lemma distort_image_shape (rnd : Draws) (img : Image) :
  0 < width img -> 0 < height img -> unit_draws rnd ->
  exists a b c d q,
    (0 <= a /\ a <= c /\ c <= width img - 1 /\
     Py.int ((4 # 10) * inject_Z (width img - 1)) <= c - a) /\
    (0 <= b /\ b <= d /\ d <= height img - 1 /\
     Py.int ((4 # 10) * inject_Z (height img - 1)) <= d - b) /\
    iou (XYXY (inject_Z 0) (inject_Z 0) (inject_Z (width img - 1))
              (inject_Z (height img - 1)))
        (XYXY (inject_Z a) (inject_Z b) (inject_Z c) (inject_Z d)) = Ok q /\
    distort_image rnd img = Ok (q, {| width := c - a; height := d - b |}).
Proof.
  intros Hw Hh [Hx Hy].
  pose proof (distort_axis (r_x rnd) (k_x rnd) (width img - 1)
                ltac:(lia) Hx) as HX.
  pose proof (distort_axis (r_y rnd) (k_y rnd) (height img - 1)
                ltac:(lia) Hy) as HY.
  pose proof (distort_axis_keeps (r_x rnd) (k_x rnd) (width img - 1)
                ltac:(lia) Hx) as KX.
  pose proof (distort_axis_keeps (r_y rnd) (k_y rnd) (height img - 1)
                ltac:(lia) Hy) as KY.
  cbv zeta in HX, HY, KX, KY.
  unfold distort_image, size, distort.
  unfold displacement in HX, HY, KX, KY.
  match type of HX with _ /\ ?ta <= ?tc /\ _ =>
    set (a := ta) in *; set (c := tc) in * end.
  match type of HY with _ /\ ?tb <= ?td /\ _ =>
    set (b := tb) in *; set (d := td) in * end.
  destruct (iou_returns
              (XYXY (inject_Z 0) (inject_Z 0) (inject_Z (width img - 1))
                    (inject_Z (height img - 1)))
              (XYXY (inject_Z a) (inject_Z b) (inject_Z c) (inject_Z d)))
    as [q Hq].
  exists a, b, c, d, q.
  split; [tauto |]. split; [tauto |]. split; [exact Hq |].
  rewrite Hq. cbn [bind]. unfold crop.
  replace ((c <? a) || (d <? b)) with false
    by (symmetry; apply orb_false_intro; apply Z.ltb_ge; tauto).
  reflexivity.
Qed.

(** X16: the crop that [distort_image] returns is never the whole image: its
    width is at most the image width minus 1 and at least four tenths of
    that, truncated; likewise for the height. *)
Theorem distort_image_crop_size (rnd : Draws) (img : Image) :
  0 < width img -> 0 < height img -> unit_draws rnd ->
  exists q img',
    distort_image rnd img = Ok (q, img') /\
    Py.int ((4 # 10) * inject_Z (width img - 1)) <= width img' /\
    width img' <= width img - 1 /\
    Py.int ((4 # 10) * inject_Z (height img - 1)) <= height img' /\
    height img' <= height img - 1.
Proof.
  intros Hw Hh Hr.
  destruct (distort_image_shape rnd img Hw Hh Hr)
    as (a & b & c & d & q & HX & HY & _ & E).
  exists q, {| width := c - a; height := d - b |}.
  split; [exact E |]. simpl. lia.
Qed.

Lemma distort_image_crop_size_witness :
  let rnd := {| r_x := 1; r_y := 1 # 4; k_x := true; k_y := false |} in
  let img := {| width := 101; height := 51 |} in
  0 < width img /\ 0 < height img /\ unit_draws rnd /\
  exists q img',
    distort_image rnd img = Ok (q, img') /\
    40 <= width img' /\ width img' <= 100 /\
    20 <= height img' /\ height img' <= 50.
Proof.
  intros rnd img.
  assert (Hw : 0 < width img) by reflexivity.
  assert (Hh : 0 < height img) by reflexivity.
  assert (Hr : unit_draws rnd) by (repeat split; vm_compute; discriminate).
  split; [exact Hw |]. split; [exact Hh |]. split; [exact Hr |].
  exact (distort_image_crop_size rnd img Hw Hh Hr).
Defined.

(** X17: for an image at least 2 pixels wide and tall, the IoU that
    [distort_image] returns is the area of the returned crop divided by the
    area [(width - 1) * (height - 1)] of the full-image box. *)
Theorem distort_image_iou_is_crop_ratio (rnd : Draws) (img : Image) :
  1 < width img -> 1 < height img -> unit_draws rnd ->
  exists q img',
    distort_image rnd img = Ok (q, img') /\
    (q == inject_Z (width img' * height img') /
          inject_Z ((width img - 1) * (height img - 1)))%Q.
Proof.
  intros Hw Hh Hr.
  destruct (distort_image_shape rnd img ltac:(lia) ltac:(lia) Hr)
    as (a & b & c & d & q & HX & HY & Hq & E).
  exists q, {| width := c - a; height := d - b |}.
  split; [exact E |]. cbn [width height].
  apply iou_contained in Hq.
  - assert (N : (area (XYXY (inject_Z a) (inject_Z b) (inject_Z c) (inject_Z d))
                 == inject_Z ((c - a) * (d - b)))%Q).
    { unfold area. cbn [x1 y1 x2 y2]. rewrite inject_Z_mult. unfold Z.sub.
      rewrite !inject_Z_plus, !inject_Z_opp. ring. }
    assert (D : (area (XYXY (inject_Z 0) (inject_Z 0) (inject_Z (width img - 1))
                            (inject_Z (height img - 1)))
                 == inject_Z ((width img - 1) * (height img - 1)))%Q).
    { unfold area. cbn [x1 y1 x2 y2]. rewrite inject_Z_mult.
      change (inject_Z 0) with 0%Q. ring. }
    now rewrite Hq, N, D.
  - split; cbn [x1 y1 x2 y2]; rewrite <- Zle_Qle; tauto.
  - unfold contains. cbn [x1 y1 x2 y2]. rewrite <- !Zle_Qle. tauto.
  - unfold area. cbn [x1 y1 x2 y2].
    assert (0 < inject_Z (width img - 1))%Q
      by (change 0%Q with (inject_Z 0); rewrite <- Zlt_Qlt; lia).
    assert (0 < inject_Z (height img - 1))%Q
      by (change 0%Q with (inject_Z 0); rewrite <- Zlt_Qlt; lia).
    change (inject_Z 0) with 0%Q. nra.
Qed.

Lemma distort_image_iou_is_crop_ratio_witness :
  let rnd := {| r_x := 1 # 2; r_y := 1 # 4; k_x := true; k_y := false |} in
  let img := {| width := 100; height := 100 |} in
  1 < width img /\ 1 < height img /\ unit_draws rnd /\
  exists q img',
    distort_image rnd img = Ok (q, img') /\
    (q == inject_Z (width img' * height img') /
          inject_Z ((width img - 1) * (height img - 1)))%Q.
Proof.
  intros rnd img.
  assert (Hw : 1 < width img) by reflexivity.
  assert (Hh : 1 < height img) by reflexivity.
  assert (Hr : unit_draws rnd) by (repeat split; vm_compute; discriminate).
  split; [exact Hw |]. split; [exact Hh |]. split; [exact Hr |].
  exact (distort_image_iou_is_crop_ratio rnd img Hw Hh Hr).
Defined.

(** X18: for an image 1 pixel wide or 1 pixel tall the full-image box has no
    area, so [distort_image] returns IoU 0 whatever the draws, and the image
    falls into bucket 2. *)
Theorem distort_image_thin_image_zero (rnd : Draws) (img : Image) :
  0 < width img -> 0 < height img -> unit_draws rnd ->
  width img = 1 \/ height img = 1 ->
  exists q img',
    distort_image rnd img = Ok (q, img') /\ (q == 0)%Q /\ bucket q = 2.
Proof.
  intros Hw Hh Hr Hthin.
  destruct (distort_image_shape rnd img Hw Hh Hr)
    as (a & b & c & d & q & _ & _ & Hq & E).
  exists q, {| width := c - a; height := d - b |}.
  split; [exact E |].
  assert (Hz : (q == 0)%Q).
  { assert (A0 : (area (XYXY (inject_Z 0) (inject_Z 0)
                             (inject_Z (width img - 1))
                             (inject_Z (height img - 1))) == 0)%Q).
    { unfold area. cbn [x1 y1 x2 y2].
      destruct Hthin as [-> | ->];
        change (inject_Z (1 - 1)) with 0%Q; change (inject_Z 0) with 0%Q; ring. }
    destruct (iou_zero_inter _ _ (inter_area_zero_l _
                (XYXY (inject_Z a) (inject_Z b) (inject_Z c) (inject_Z d)) A0))
      as (q' & Hq' & Hz).
    rewrite Hq in Hq'. now injection Hq' as <-. }
  split; [exact Hz |].
  unfold bucket. replace (Py.ltb q (2 # 10)) with true; [reflexivity |].
  symmetry. apply ltb_true. rewrite Hz. reflexivity.
Qed.

Lemma distort_image_thin_image_zero_witness :
  let rnd := {| r_x := 1 # 2; r_y := 1 # 4; k_x := true; k_y := false |} in
  let img := {| width := 1; height := 40 |} in
  0 < width img /\ 0 < height img /\ unit_draws rnd /\
  (width img = 1 \/ height img = 1) /\
  exists q img',
    distort_image rnd img = Ok (q, img') /\ (q == 0)%Q /\ bucket q = 2.
Proof.
  intros rnd img.
  assert (Hw : 0 < width img) by reflexivity.
  assert (Hh : 0 < height img) by reflexivity.
  assert (Hr : unit_draws rnd) by (repeat split; vm_compute; discriminate).
  assert (Ht : width img = 1 \/ height img = 1) by (left; reflexivity).
  split; [exact Hw |]. split; [exact Hh |]. split; [exact Hr |].
  split; [exact Ht |].
  exact (distort_image_thin_image_zero rnd img Hw Hh Hr Ht).
Defined.

(** ** More on [main] *)

Lemma hits_app (correct : bool) (k : Z) (l1 l2 : list (string * Entry)) :
  hits correct k (l1 ++ l2) = hits correct k l1 + hits correct k l2.
Proof.
  unfold hits. induction l1 as [| ce l1 IH]; simpl; [reflexivity |].
  rewrite IH. lia.
Qed.

(** What one entry adds to each counter. *)
Lemma process_file_counts (cls_dir : string) (e : Entry) (st : Counters) :
  keyed st -> valid_entry e ->
  exists st',
    process_file cls_dir e st = Ok st' /\ keyed st' /\
    forall k,
      count (fst st') k = count (fst st) k + Z.b2z (hit true k (cls_dir, e)) /\
      count (snd st') k = count (snd st) k + Z.b2z (hit false k (cls_dir, e)).
Proof.
  intros Hk Hv. unfold hit. cbn [fst snd].
  destruct (is_png e) eqn:Hpng; cbn [andb].
  - destruct (classified e) as [pred | x] eqn:Hc.
    + destruct (process_file_classified cls_dir pred e st Hk Hpng Hv Hc)
        as (q & img' & Hd & Hp).
      eexists. split; [exact Hp |]. split; [now apply keyed_counted_once |].
      unfold entry_iou. rewrite Hd.
      pose proof (counted_once_effect cls_dir pred q st) as [Heq Hne].
      intros k.
      destruct (String.eqb_spec pred cls_dir) as [P | P]; cbn [Bool.eqb andb].
      * destruct (Heq P) as (S2 & C1 & C2). rewrite S2.
        destruct (Z.eqb_spec (bucket q) k) as [<- | N]; simpl.
        -- split; lia.
        -- rewrite (C2 k) by congruence. split; lia.
      * destruct (Hne P) as (S1 & C1 & C2). rewrite S1.
        destruct (Z.eqb_spec (bucket q) k) as [<- | N]; simpl.
        -- split; lia.
        -- rewrite (C2 k) by congruence. split; lia.
    + exists st. split.
      { apply process_file_raises; try assumption. unfold raises. now rewrite Hc. }
      split; [exact Hk |]. intros k. simpl. split; lia.
  - exists st. split; [now apply process_file_other |].
    split; [exact Hk |]. intros k. simpl. split; lia.
Qed.

Lemma process_files_counts (cls_dir : string) (files : list Entry) :
  Forall valid_entry files ->
  forall st, keyed st ->
  exists st',
    process_files cls_dir files st = Ok st' /\ keyed st' /\
    forall k,
      count (fst st') k =
        count (fst st) k + hits true k (map (pair cls_dir) files) /\
      count (snd st') k =
        count (snd st) k + hits false k (map (pair cls_dir) files).
Proof.
  induction 1 as [| e files Hv _ IH]; intros st Hk.
  - exists st. split; [reflexivity |]. split; [exact Hk |].
    intros k. simpl. split; lia.
  - destruct (process_file_counts cls_dir e st Hk Hv) as (st1 & E1 & K1 & C1).
    destruct (IH st1 K1) as (st2 & E2 & K2 & C2).
    exists st2. cbn [process_files]. rewrite E1. cbn [bind].
    split; [exact E2 |]. split; [exact K2 |].
    intros k. destruct (C1 k) as [A1 B1]. destruct (C2 k) as [A2 B2].
    cbn [map hits foldr]. fold (hits true k (map (pair cls_dir) files)).
    fold (hits false k (map (pair cls_dir) files)). split; lia.
Qed.

Lemma process_dirs_counts (dirs : list (string * list Entry)) :
  valid_dataset dirs ->
  forall st, keyed st ->
  exists st',
    process_dirs dirs st = Ok st' /\ keyed st' /\
    forall k,
      count (fst st') k = count (fst st) k + hits true k (images dirs) /\
      count (snd st') k = count (snd st) k + hits false k (images dirs).
Proof.
  induction 1 as [| [cls_dir files] dirs Hv _ IH]; intros st Hk.
  - exists st. split; [reflexivity |]. split; [exact Hk |].
    intros k. simpl. split; lia.
  - simpl in Hv.
    destruct (process_files_counts cls_dir files Hv st Hk)
      as (st1 & E1 & K1 & C1).
    destruct (IH st1 K1) as (st2 & E2 & K2 & C2).
    exists st2. cbn [process_dirs]. rewrite E1. cbn [bind].
    split; [exact E2 |]. split; [exact K2 |].
    intros k. destruct (C1 k) as [A1 B1]. destruct (C2 k) as [A2 B2].
    cbn [images]. rewrite !hits_app. split; lia.
Qed.

Lemma main_counts (dirs : list (string * list Entry)) :
  valid_dataset dirs ->
  exists d d_not,
    main dirs = Ok (d, d_not) /\ has_keys d /\ has_keys d_not /\
    forall k,
      count d k = hits true k (images dirs) /\
      count d_not k = hits false k (images dirs).
Proof.
  intros Hv.
  destruct (process_dirs_counts dirs Hv (initial_counts, initial_counts))
    as ([d dn] & E & [K1 K2] & C).
  { split; apply has_keys_initial. }
  exists d, dn. split; [exact E |]. split; [exact K1 |]. split; [exact K2 |].
  intros k. destruct (C k) as [A B]. cbn [fst snd] in A, B.
  rewrite count_initial in A, B. split; lia.
Qed.

(** X19: at the end of a run over decodable images, the correct counter of
    each bucket holds the number of classified images whose IoU falls into
    that bucket and whose predicted label is the name of their directory,
    and the incorrect counter holds the number of those whose label
    differs. *)
Theorem main_counts_per_bucket (dirs : list (string * list Entry)) :
  valid_dataset dirs ->
  exists d d_not,
    main dirs = Ok (d, d_not) /\
    forall k,
      count d k = hits true k (images dirs) /\
      count d_not k = hits false k (images dirs).
Proof.
  intros Hv. destruct (main_counts dirs Hv) as (d & dn & E & _ & _ & C).
  now exists d, dn.
Qed.

Lemma main_counts_per_bucket_witness :
  valid_dataset sample_dataset /\
  exists d d_not,
    main sample_dataset = Ok (d, d_not) /\
    forall k,
      count d k = hits true k (images sample_dataset) /\
      count d_not k = hits false k (images sample_dataset).
Proof.
  assert (Hv : valid_dataset sample_dataset).
  { unfold valid_dataset, sample_dataset. valid_concrete. }
  split; [exact Hv |].
  exact (main_counts_per_bucket sample_dataset Hv).
Defined.

(** Two mappings over the nine keys with the same counters are equal. *)
Lemma counts_determine (d d' : gmap Z Z) :
  has_keys d -> has_keys d' -> (forall k, count d k = count d' k) -> d = d'.
Proof.
  intros Hd Hd' Hc. apply map_eq. intros k.
  destruct (decide (k ∈ bucket_keys)) as [Hk | Hk].
  - rewrite (has_keys_lookup d k Hd Hk), (has_keys_lookup d' k Hd' Hk).
    now rewrite Hc.
  - assert (N : forall m : gmap Z Z, has_keys m -> m !! k = None).
    { intros m Hm. apply not_elem_of_dom. rewrite Hm.
      now rewrite elem_of_list_to_set. }
    now rewrite (N d Hd), (N d' Hd').
Qed.

Lemma hits_none (correct : bool) (k : Z) (l : list (string * Entry)) :
  all_labelled correct l -> hits (negb correct) k l = 0.
Proof.
  induction 1 as [| ce l Hce _ IH]; [reflexivity |].
  cbn [hits foldr]. fold (hits (negb correct) k l). rewrite IH.
  unfold hit. destruct (is_png (snd ce)); [| reflexivity].
  destruct (Hce eq_refl) as (pred & -> & ->).
  destruct (entry_iou (snd ce)); [| reflexivity].
  now destruct correct.
Qed.

Lemma successes_in_labelled (correct : bool) (cls_dir : string)
    (files : list Entry) :
  all_labelled correct (map (pair cls_dir) files) ->
  successes_in files = pngs (map (pair cls_dir) files).
Proof.
  induction files as [| e files IH]; intros H; [reflexivity |].
  cbn [map] in H. apply Forall_cons in H. destruct H as [He H].
  cbn [successes_in map pngs foldr]. fold (pngs (map (pair cls_dir) files)).
  rewrite (IH H). unfold classified_ok. cbn [snd fst] in *.
  destruct (is_png e); [| reflexivity].
  now destruct (He eq_refl) as (pred & -> & _).
Qed.

Lemma pngs_app (l1 l2 : list (string * Entry)) :
  pngs (l1 ++ l2) = pngs l1 + pngs l2.
Proof.
  unfold pngs. induction l1 as [| ce l1 IH]; simpl; [reflexivity |].
  rewrite IH. lia.
Qed.

Lemma successes_labelled (correct : bool) (dirs : list (string * list Entry)) :
  all_labelled correct (images dirs) -> successes dirs = pngs (images dirs).
Proof.
  induction dirs as [| [cls_dir files] dirs IH]; intros H; [reflexivity |].
  cbn [images] in H. apply Forall_app in H. destruct H as [H1 H2].
  cbn [successes images]. rewrite pngs_app, (IH H2).
  now rewrite (successes_in_labelled correct cls_dir files H1).
Qed.

(** X20: with a classifier that always returns the name of the directory,
    the incorrect mapping stays as initialized and the correct counters sum
    to the number of image files; with a classifier that always returns
    another label it is the other way round. *)
Theorem main_uniform_classifier (correct : bool)
    (dirs : list (string * list Entry)) :
  valid_dataset dirs -> all_labelled correct (images dirs) ->
  exists d d_not,
    main dirs = Ok (d, d_not) /\
    (if correct then d_not else d) = initial_counts /\
    total (if correct then d else d_not) = pngs (images dirs).
Proof.
  intros Hv Hl.
  destruct (main_counts dirs Hv) as (d & dn & E & K1 & K2 & C).
  destruct (main_run dirs Hv) as (d' & dn' & E' & _ & _ & T & _).
  rewrite E in E'. injection E' as <- <-.
  rewrite (successes_labelled correct dirs Hl) in T.
  exists d, dn. split; [exact E |].
  destruct correct.
  - assert (D : dn = initial_counts).
    { apply counts_determine; [exact K2 | apply has_keys_initial |].
      intros k. rewrite count_initial. destruct (C k) as [_ ->].
      apply (hits_none true k _ Hl). }
    split; [exact D |]. rewrite D, total_initial in T. lia.
  - assert (D : d = initial_counts).
    { apply counts_determine; [exact K1 | apply has_keys_initial |].
      intros k. rewrite count_initial. destruct (C k) as [-> _].
      apply (hits_none false k _ Hl). }
    split; [exact D |]. rewrite D, total_initial in T. lia.
Qed.




Lemma process_files_only_png (cls_dir : string) (files : list Entry) :
  forall st,
    process_files cls_dir (List.filter is_png files) st =
    process_files cls_dir files st.
Proof.
  induction files as [| e files IH]; intros st; [reflexivity |].
  cbn [List.filter process_files]. destruct (is_png e) eqn:Hpng.
  - cbn [process_files]. destruct (process_file cls_dir e st); cbn [bind];
      [apply IH | reflexivity].
  - rewrite (process_file_other cls_dir e st Hpng). cbn [bind]. apply IH.
Qed.

(** X22: files whose name does not end in [.png] play no part: removing
    them from the dataset leaves the outcome of [main] unchanged, be it the
    two mappings or an error. *)
Theorem main_ignores_other_files (dirs : list (string * list Entry)) :
  main (only_png dirs) = main dirs.
Proof.
  unfold main. generalize (initial_counts, initial_counts).
  induction dirs as [| [cls_dir files] dirs IH]; intros st; [reflexivity |].
  cbn [only_png map process_dirs fst snd].
  rewrite process_files_only_png.
  destruct (process_files cls_dir files st); cbn [bind];
    [apply IH | reflexivity].
Qed.

Lemma main_uniform_classifier_witness :
  valid_dataset two_dirs /\ all_labelled true (images two_dirs) /\
  exists d d_not,
    main two_dirs = Ok (d, d_not) /\
    d_not = initial_counts /\ total d = pngs (images two_dirs).
Proof.
  assert (Hv : valid_dataset two_dirs).
  { unfold valid_dataset, two_dirs. valid_concrete. }
  assert (Hl : all_labelled true (images two_dirs)).
  { unfold all_labelled, two_dirs. cbn [images map app].
    repeat (apply Forall_cons; split;
            [intros _; eexists; split; reflexivity |]).
    apply Forall_nil. exact I. }
  split; [exact Hv |]. split; [exact Hl |].
  exact (main_uniform_classifier true two_dirs Hv Hl).
Defined.


(** ** The [.png] test *)

Lemma string_length_append (p q : string) :
  String.length (String.append p q) = (String.length p + String.length q)%nat.
Proof. induction p as [| c p IH]; simpl; [reflexivity | now rewrite IH]. Qed.

Lemma substring_all (s : string) : substring 0 (String.length s) s = s.
Proof. induction s as [| c s IH]; simpl; [reflexivity | now rewrite IH]. Qed.

Lemma substring_after (p q : string) :
  substring (String.length p) (String.length q) (String.append p q) = q.
Proof. induction p as [| c p IH]; simpl; [apply substring_all | exact IH]. Qed.

Lemma substring_split (s : string) :
  forall k, (k <= String.length s)%nat ->
  s = String.append (substring 0 k s) (substring k (String.length s - k) s).
Proof.
  induction s as [| c s IH]; intros k Hk.
  - simpl in Hk. assert (k = 0%nat) as -> by lia. reflexivity.
  - destruct k as [| k].
    + cbn [substring String.append]. rewrite Nat.sub_0_r.
      change (String.length (String c s)) with (S (String.length s)).
      cbn [substring]. now rewrite substring_all.
    + simpl in Hk. simpl.
      change (String.append (String c ?x) ?y) with (String c (String.append x y)).
      f_equal. apply IH. lia.
Qed.

(** X23: [endswith s suffix] holds exactly when [s] is some string followed
    by [suffix]; in particular a file is treated as an image exactly when
    its name is some string followed by [.png], in lower case. *)
Theorem endswith_iff_append (s suffix : string) :
  endswith s suffix = true <-> exists p, s = String.append p suffix.
Proof.
  unfold endswith. rewrite andb_true_iff, Nat.leb_le, String.eqb_eq. split.
  - intros [Hle Hs].
    exists (substring 0 (String.length s - String.length suffix) s).
    rewrite <- Hs at 2.
    rewrite (substring_split s (String.length s - String.length suffix))
      at 1 by lia.
    do 2 f_equal. lia.
  - intros [p ->]. rewrite string_length_append. split; [lia |].
    replace (String.length p + String.length suffix - String.length suffix)%nat
      with (String.length p) by lia.
    apply substring_after.
Qed.

(** ** More on the buckets and on undisplaced images *)

Lemma bucket_cases (q : Q) :
  ((q < 2 # 10)%Q /\ bucket q = 2) \/
  ((2 # 10 <= q < 3 # 10)%Q /\ bucket q = 3) \/
  ((3 # 10 <= q < 4 # 10)%Q /\ bucket q = 4) \/
  ((4 # 10 <= q < 5 # 10)%Q /\ bucket q = 5) \/
  ((5 # 10 <= q < 6 # 10)%Q /\ bucket q = 6) \/
  ((6 # 10 <= q < 7 # 10)%Q /\ bucket q = 7) \/
  ((7 # 10 <= q < 8 # 10)%Q /\ bucket q = 8) \/
  ((8 # 10 <= q < 9 # 10)%Q /\ bucket q = 9) \/
  ((9 # 10 <= q)%Q /\ bucket q = 10).
Proof.
  unfold bucket.
  destruct (Py.ltb q (2 # 10)) eqn:?; [ltb_facts; tauto |].
  destruct (Py.ltb q (3 # 10)) eqn:?; [ltb_facts; tauto |].
  destruct (Py.ltb q (4 # 10)) eqn:?; [ltb_facts; tauto |].
  destruct (Py.ltb q (5 # 10)) eqn:?; [ltb_facts; tauto |].
  destruct (Py.ltb q (6 # 10)) eqn:?; [ltb_facts; tauto |].
  destruct (Py.ltb q (7 # 10)) eqn:?; [ltb_facts; tauto |].
  destruct (Py.ltb q (8 # 10)) eqn:?; [ltb_facts; tauto |].
  destruct (Py.ltb q (9 # 10)) eqn:?; ltb_facts; tauto.
Qed.

(** X24: the bucket key grows with the IoU: a greater or equal IoU never
    falls into a lower bucket, and numerically equal IoUs fall into the same
    bucket. *)
Theorem bucket_monotone (q q' : Q) :
  (q <= q')%Q -> bucket q <= bucket q'.
Proof.
  intros H.
  destruct (bucket_cases q) as [[R ->] | [[R ->] | [[R ->] | [[R ->] |
    [[R ->] | [[R ->] | [[R ->] | [[R ->] | [R ->]]]]]]]]];
  destruct (bucket_cases q') as [[R' ->] | [[R' ->] | [[R' ->] | [[R' ->] |
    [[R' ->] | [[R' ->] | [[R' ->] | [[R' ->] | [R' ->]]]]]]]]];
  first [ discriminate | exfalso; lra | intros C; discriminate C ].
Qed.

Lemma bucket_monotone_witness :
  (1 # 4 <= 17 # 20)%Q /\ bucket (1 # 4) <= bucket (17 # 20).
Proof.
  assert (H : (1 # 4 <= 17 # 20)%Q) by (vm_compute; discriminate).
  split; [exact H |]. exact (bucket_monotone (1 # 4) (17 # 20) H).
Defined.

(** With both draws at 0 nothing moves along an axis of the full-image
    box. *)
Lemma distort_axis_still (r : Q) (k : bool) (n : Z) :
  0 <= n -> (r == 0)%Q ->
  let lo := inject_Z 0 in
  let hi := inject_Z n in
  let d := displacement r k (hi - lo) in
  Py.int (Py.max 0 (lo + d)) = 0 /\ Py.int (Py.min (hi - lo) (hi + d)) = n.
Proof.
  intros Hn Hr lo hi d.
  assert (Hd : (d == 0)%Q).
  { unfold d, displacement, Py.uniform. rewrite Hr. ring. }
  assert (Hlo : (lo == 0)%Q) by reflexivity.
  split.
  - transitivity (Py.int lo); [| apply int_inject_Z].
    apply int_eq. py_cases; lra.
  - transitivity (Py.int hi); [| apply int_inject_Z].
    apply int_eq. py_cases; lra.
Qed.

(** X25: when both uniform draws are 0 the image is not displaced:
    [distort_image] on an image at least 2 pixels wide and tall returns
    IoU 1, which falls into bucket 10, and a crop one pixel narrower and one
    pixel lower than the image. *)
Theorem distort_image_undisplaced (rnd : Draws) (img : Image) :
  1 < width img -> 1 < height img ->
  (r_x rnd == 0)%Q -> (r_y rnd == 0)%Q ->
  exists q,
    distort_image rnd img =
      Ok (q, {| width := width img - 1; height := height img - 1 |}) /\
    (q == 1)%Q /\ bucket q = 10.
Proof.
  intros Hw Hh Hx Hy.
  pose proof (distort_axis_still (r_x rnd) (k_x rnd) (width img - 1)
                ltac:(lia) Hx) as [Xa Xc].
  pose proof (distort_axis_still (r_y rnd) (k_y rnd) (height img - 1)
                ltac:(lia) Hy) as [Ya Yc].
  unfold displacement in Xa, Xc, Ya, Yc.
  unfold distort_image, size, distort.
  rewrite Xa, Xc, Ya, Yc.
  set (box := XYXY (inject_Z 0) (inject_Z 0) (inject_Z (width img - 1))
                   (inject_Z (height img - 1))).
  destruct (iou_returns box box) as [q Hq].
  assert (H1 : (q == 1)%Q).
  { apply (iou_same_box_one box box).
    - repeat split; reflexivity.
    - unfold box. cbn [x1 x2]. rewrite <- Zlt_Qlt. lia.
    - unfold box. cbn [y1 y2]. rewrite <- Zlt_Qlt. lia.
    - exact Hq. }
  exists q. rewrite Hq. cbn [bind]. unfold crop.
  replace ((width img - 1 <? 0) || (height img - 1 <? 0)) with false
    by (symmetry; apply orb_false_intro; apply Z.ltb_ge; lia).
  cbn [bind]. rewrite !Z.sub_0_r. split; [reflexivity |].
  split; [exact H1 |].
  destruct (bucket_cases q) as [[R _] | [[R _] | [[R _] | [[R _] |
    [[R _] | [[R _] | [[R _] | [[R _] | [_ B]]]]]]]]]; try lra. exact B.
Qed.

Lemma distort_image_undisplaced_witness :
  let rnd := {| r_x := 0; r_y := 0; k_x := true; k_y := false |} in
  let img := {| width := 32; height := 24 |} in
  1 < width img /\ 1 < height img /\
  (r_x rnd == 0)%Q /\ (r_y rnd == 0)%Q /\
  exists q,
    distort_image rnd img = Ok (q, {| width := 31; height := 23 |}) /\
    (q == 1)%Q /\ bucket q = 10.
Proof.
  intros rnd img.
  assert (Hw : 1 < width img) by reflexivity.
  assert (Hh : 1 < height img) by reflexivity.
  assert (Hx : (r_x rnd == 0)%Q) by reflexivity.
  assert (Hy : (r_y rnd == 0)%Q) by reflexivity.
  split; [exact Hw |]. split; [exact Hh |].
  split; [exact Hx |]. split; [exact Hy |].
  exact (distort_image_undisplaced rnd img Hw Hh Hx Hy).
Defined.
